(** * European barrier option pricing by Monte Carlo: the engine of
      [barrier_options.py], embedded and verified.

    Numbers.  The program computes on binary64 floats through numpy.  The
    embedding idealises them as real numbers ([R]): rounding, overflow and
    infinities are not modelled.  The one not-a-number the grid can produce
    without any rounding, the mean of an empty array, is kept ([NaN]).  The
    other one, [np.sqrt] of a negative [T / steps], has no counterpart in
    [R]: every theorem about the values of generated paths assumes
    [0 <= T] and [1 <= steps].

    Arrays.  A two-dimensional array is the list of its rows.  The list
    without rows stands for the array of shape (0, m) that the sampler
    returns for [num_iters = 0]; theorems about a batch handed to the payoff
    evaluator assume at least one row and one common row length of at least
    one.

    Effects.  Python exceptions are an error result ([Raise]); the global
    generator behind [np.random] is a state threaded through the pricing
    call.  Printing and plotting do not influence the returned value and are
    left out. *)

From Stdlib Require Import Reals Lra Lia ZArith String Bool List.
Import ListNotations.

Local Open Scope R_scope.

(** ** Python-level results *)

Inductive exn : Set :=
| SystemExit          (* sys.exit() *)
| ZeroDivisionError   (* float / 0 *)
| ValueError.         (* raised inside numpy *)

Inductive result (A : Type) : Type :=
| Ok (a : A)
| Raise (e : exn).

Arguments Ok {A} a.
Arguments Raise {A} e.

Definition rbind {A B : Type} (m : result A) (k : A -> result B) : result B :=
  match m with
  | Ok a => k a
  | Raise e => Raise e
  end.

Notation "x <- m ;; k" := (rbind m (fun x => k))
  (at level 61, m at next level, right associativity).

(** A float that is either a number or numpy's [nan]. *)
Inductive float : Type :=
| Num (x : R)
| NaN.

(** ** The numpy operations the engine uses *)

(** [np.max(row)] and [np.min(row)]: a reduction without identity, refused
    on an empty row. *)
Definition np_max (row : list R) : result R :=
  match row with
  | [] => Raise ValueError
  | x :: xs => Ok (fold_left Rmax xs x)
  end.

Definition np_min (row : list R) : result R :=
  match row with
  | [] => Raise ValueError
  | x :: xs => Ok (fold_left Rmin xs x)
  end.

(** [f(a, axis=1)] for a row-wise reduction [f]. *)
Fixpoint axis1 (f : list R -> result R) (a : list (list R)) : result (list R) :=
  match a with
  | [] => Ok []
  | row :: rows =>
      m <- f row ;;
      ms <- axis1 f rows ;;
      Ok (m :: ms)
  end.

(** [np.where(cond, 1, 0)] *)
Definition np_where (cond : R -> bool) (a : list R) : list Z :=
  map (fun x => if cond x then 1%Z else 0%Z) a.

Definition Rgeb (x y : R) : bool := if Rge_dec x y then true else false.
Definition Rleb (x y : R) : bool := if Rle_dec x y then true else false.
Definition Rltb (x y : R) : bool := if Rlt_dec x y then true else false.
Definition Rgtb (x y : R) : bool := if Rgt_dec x y then true else false.

(** [np.cumprod(row)] *)
Fixpoint cumprod_from (acc : R) (row : list R) : list R :=
  match row with
  | [] => []
  | x :: xs => (acc * x) :: cumprod_from (acc * x) xs
  end.

Definition np_cumprod (row : list R) : list R :=
  match row with
  | [] => []
  | x :: xs => x :: cumprod_from x xs
  end.

Definition np_sum (a : list R) : R := fold_left Rplus a 0.

(** [np.mean(a)]: [nan] on an empty array (numpy only warns). *)
Definition np_mean (a : list R) : float :=
  match a with
  | [] => NaN
  | _ :: _ => Num (np_sum a / INR (length a))
  end.

(** [np.array(price_series)] on a list of rows: rows of different lengths
    are refused.  The list without rows is the array of shape (0, m) that
    the pricing call passes for [num_iters = 0]. *)
Definition np_array (a : list (list R)) : result (list (list R)) :=
  match a with
  | [] => Ok []
  | row :: rows =>
      if forallb (fun r => (length r =? length row)%nat) rows
      then Ok a
      else Raise ValueError
  end.

(** [price_series[iter, -1]] *)
Definition item_last (price_series : list (list R)) (iter : nat) : R :=
  last (nth iter price_series []) 0.

(** ** class BarrierOption *)

Module BarrierOption.

Record t : Type := mk {
  option_type    : string;
  barrier_type   : string;
  S0             : R;
  K              : R;
  B              : R;
  T              : R;
  volatility     : R;
  risk_free_rate : R
}.

(** [BarrierOption.__init__]: the three guards, each ending in
    [sys.exit()], then the eight assignments. *)
Definition __init__ (option_type barrier_type : string)
    (S0 K B T volatility risk_free_rate : R) : result t :=
  if negb (option_type =? "call")%string && negb (option_type =? "put")%string
  then Raise SystemExit
  else if negb (barrier_type =? "up_and_out")%string
          && negb (barrier_type =? "down_and_out")%string
          && negb (barrier_type =? "up_and_in")%string
          && negb (barrier_type =? "down_and_in")%string
  then Raise SystemExit
  else if Rltb volatility 0 || Rgtb volatility 1
  then Raise SystemExit
  else Ok (mk option_type barrier_type S0 K B T volatility risk_free_rate).

(** [present_value]: [np.array(value) * np.exp(-self.risk_free_rate * self.T)] *)
Definition present_value (self : t) (value : list R) : list R :=
  map (fun v => v * exp ((- risk_free_rate self) * T self)) value.

(** [vanilla_payoff], on one expiration price. *)
Definition vanilla_payoff (self : t) (expiration_prices : R) : R :=
  if (option_type self =? "call")%string
  then Rmax (expiration_prices - K self) 0
  else Rmax (K self - expiration_prices) 0.

(** The loop of the two [_and_out] branches: a reached barrier pays 0. *)
Definition payoff_loop_out (self : t) (price_series : list (list R))
    (barrier_reached : list Z) : list R :=
  fold_left
    (fun payoff iter =>
       if (nth iter barrier_reached 0 =? 1)%Z
       then payoff ++ [0]
       else payoff ++ [vanilla_payoff self (item_last price_series iter)])
    (seq 0 (length barrier_reached)) [].

(** The loop of the two [_and_in] branches: an unreached barrier pays 0. *)
Definition payoff_loop_in (self : t) (price_series : list (list R))
    (barrier_reached : list Z) : list R :=
  fold_left
    (fun payoff iter =>
       if (nth iter barrier_reached 0 =? 0)%Z
       then payoff ++ [0]
       else payoff ++ [vanilla_payoff self (item_last price_series iter)])
    (seq 0 (length barrier_reached)) [].

Definition is_up (self : t) : bool :=
  (barrier_type self =? "up_and_out")%string
  || (barrier_type self =? "up_and_in")%string.

(** The local [barrier_reached] of [contract_payoff], from the conversion
    of line 110 on: the running maximum against the barrier for the two up
    types, the running minimum for every other type. *)
Definition barrier_reached (self : t) (price_series : list (list R))
    : result (list Z) :=
  price_series <- np_array price_series ;;
  if is_up self
  then
    max_price <- axis1 np_max price_series ;;
    Ok (np_where (fun m => Rgeb m (B self)) max_price)
  else
    min_price <- axis1 np_min price_series ;;
    Ok (np_where (fun m => Rleb m (B self)) min_price).

(** [contract_payoff] *)
Definition contract_payoff (self : t) (price_series : list (list R))
    : result (list R) :=
  if is_up self
  then
    reached <- barrier_reached self price_series ;;
    if (barrier_type self =? "up_and_out")%string
    then Ok (payoff_loop_out self price_series reached)
    else Ok (payoff_loop_in self price_series reached)
  else
    reached <- barrier_reached self price_series ;;
    if (barrier_type self =? "down_and_out")%string
    then Ok (payoff_loop_out self price_series reached)
    else Ok (payoff_loop_in self price_series reached).

(** Lines 176-177 of [monte_carlo_pricing]: the batch of paths built from
    the matrix [Z] of normal draws, one row per path.  [sqrt] is the real
    square root: the definition stands for the code when [T / steps] is not
    negative. *)
Definition end_of_step_price (self : t) (steps : Z) (Zm : list (list R))
    : list (list R) :=
  let step_volatility := volatility self * sqrt (T self / IZR steps) in
  map (fun Zrow =>
         (S0 self * 1) ::
         map (Rmult (S0 self))
           (np_cumprod
              (map (fun z =>
                      exp ((risk_free_rate self
                            - 0.5 * (volatility self) ^ 2) * (T self / IZR steps)
                           + step_volatility * z))
                 Zrow)))
    Zm.

(** Lines 179-181: payoffs, their present value, the mean. *)
Definition estimated_value (self : t) (price_series : list (list R))
    : result float :=
  payoffs <- contract_payoff self price_series ;;
  let present_value_payoffs := present_value self payoffs in
  Ok (np_mean present_value_payoffs).

End BarrierOption.

(** ** The global random source and [monte_carlo_pricing] *)

Section Pricing.

(** The legacy global generator of [np.random]: its state, the state that
    [np.random.seed(s)] installs, and one standard-normal draw. *)
Variable rng : Type.
Variable seed_state : Z -> rng.
Variable standard_normal : rng -> R * rng.

(** Computations that read and advance the generator and may raise. *)
Definition M (A : Type) : Type := rng -> result A * rng.

Definition ret {A : Type} (a : A) : M A := fun g => (Ok a, g).

Definition raise {A : Type} (e : exn) : M A := fun g => (Raise e, g).

Definition bind {A B : Type} (m : M A) (k : A -> M B) : M B :=
  fun g =>
    match m g with
    | (Ok a, g') => k a g'
    | (Raise e, g') => (Raise e, g')
    end.

Definition lift {A : Type} (r : result A) : M A := fun g => (r, g).

Notation "x <~ m ;; k" := (bind m (fun x => k))
  (at level 61, m at next level, right associativity).

(** [np.random.seed(seed)]: an integer seed must lie in [0, 2**32 - 1];
    the state is replaced as a whole. *)
Definition np_random_seed (seed : Z) : M unit :=
  fun g =>
    if ((0 <=? seed) && (seed <? 2 ^ 32))%Z
    then (Ok tt, seed_state seed)
    else (Raise ValueError, g).

Fixpoint normal_row (m : nat) (g : rng) : list R * rng :=
  match m with
  | O => ([], g)
  | S m' =>
      let (z, g1) := standard_normal g in
      let (zs, g2) := normal_row m' g1 in
      (z :: zs, g2)
  end.

Fixpoint normal_rows (n m : nat) (g : rng) : list (list R) * rng :=
  match n with
  | O => ([], g)
  | S n' =>
      let (row, g1) := normal_row m g in
      let (rows, g2) := normal_rows n' m g1 in
      (row :: rows, g2)
  end.

(** [np.random.normal(size=(n, m))]: a negative dimension is refused before
    anything is drawn; otherwise [n * m] draws fill the matrix row by row. *)
Definition np_random_normal (n m : Z) : M (list (list R)) :=
  fun g =>
    if ((n <? 0) || (m <? 0))%Z
    then (Raise ValueError, g)
    else let (Zm, g') := normal_rows (Z.to_nat n) (Z.to_nat m) g in (Ok Zm, g').

(** [self.T / steps], a Python float by a Python int. *)
Definition py_truediv (x : R) (n : Z) : result R :=
  if (n =? 0)%Z then Raise ZeroDivisionError else Ok (x / IZR n).

(** [monte_carlo_pricing(steps, num_iters, seed=seed)] *)
Definition monte_carlo_pricing (self : BarrierOption.t) (steps num_iters : Z)
    (seed : option Z) : M float :=
  _ <~ match seed with
       | Some s => np_random_seed s
       | None => ret tt
       end ;;
  _ <~ lift (py_truediv (BarrierOption.T self) steps) ;;
  Zm <~ np_random_normal num_iters steps ;;
  let end_of_step_price := BarrierOption.end_of_step_price self steps Zm in
  lift (BarrierOption.estimated_value self end_of_step_price).

End Pricing.

Arguments ret {rng A} a.
Arguments raise {rng A} e.
Arguments bind {rng A B} m k.
Arguments lift {rng A} r.
Arguments monte_carlo_pricing {rng} seed_state standard_normal self steps num_iters seed.
Arguments np_random_normal {rng} standard_normal n m.
Arguments normal_rows {rng} standard_normal n m g.
Arguments normal_row {rng} standard_normal m g.
Arguments np_random_seed {rng} seed_state seed.

(** ** Specification-side notions *)

(** The sum of [f 0], ..., [f (n - 1)]. *)
Fixpoint big_sum (f : nat -> R) (n : nat) : R :=
  match n with
  | O => 0
  | S n' => big_sum f n' + f n'
  end.

(** The product of [f 1], ..., [f k]. *)
Fixpoint big_prod (f : nat -> R) (k : nat) : R :=
  match k with
  | O => 1
  | S k' => big_prod f k' * f k
  end.

(** The arithmetic mean of [f 0], ..., [f (n - 1)]. *)
Definition arithmetic_mean (f : nat -> R) (n : nat) : R :=
  big_sum f n / INR n.

(** [m] is the greatest (least) element of [l]. *)
Definition is_max (m : R) (l : list R) : Prop :=
  In m l /\ forall x, In x l -> x <= m.

Definition is_min (m : R) (l : list R) : Prop :=
  In m l /\ forall x, In x l -> m <= x.

(** A batch with one common row length of at least one (it may have no
    row), and a batch that moreover has at least one row. *)
Definition well_shaped (price_series : list (list R)) : Prop :=
  exists width, (1 <= width)%nat /\
    Forall (fun row => length row = width) price_series.

Definition rectangular (price_series : list (list R)) : Prop :=
  price_series <> [] /\ well_shaped price_series.

(** The constraints [__init__] rejects. *)
Definition bad_option_type (option_type : string) : Prop :=
  option_type <> "call"%string /\ option_type <> "put"%string.

Definition bad_barrier_type (barrier_type : string) : Prop :=
  barrier_type <> "up_and_out"%string /\ barrier_type <> "down_and_out"%string /\
  barrier_type <> "up_and_in"%string /\ barrier_type <> "down_and_in"%string.

Definition rejected (option_type barrier_type : string) (volatility : R) : Prop :=
  bad_option_type option_type \/ bad_barrier_type barrier_type \/
  volatility < 0 \/ volatility > 1.

(** A contract is valid when [__init__] builds it from its own fields. *)
Definition valid (self : BarrierOption.t) : Prop :=
  BarrierOption.__init__
    (BarrierOption.option_type self) (BarrierOption.barrier_type self)
    (BarrierOption.S0 self) (BarrierOption.K self) (BarrierOption.B self)
    (BarrierOption.T self) (BarrierOption.volatility self)
    (BarrierOption.risk_free_rate self) = Ok self.

Definition up_kind (barrier_type : string) : Prop :=
  barrier_type = "up_and_out"%string \/ barrier_type = "up_and_in"%string.

Definition down_kind (barrier_type : string) : Prop :=
  barrier_type = "down_and_out"%string \/ barrier_type = "down_and_in"%string.

Definition out_kind (barrier_type : string) : Prop :=
  barrier_type = "up_and_out"%string \/ barrier_type = "down_and_out"%string.

Definition in_kind (barrier_type : string) : Prop :=
  barrier_type = "up_and_in"%string \/ barrier_type = "down_and_in"%string.

(** Barrier activation in the words of the specification: the maximum of
    the path is at or above the barrier (up types), the minimum at or below
    it (down types). *)
Definition activated (self : BarrierOption.t) (path : list R) : Prop :=
  (up_kind (BarrierOption.barrier_type self) /\
   exists m, is_max m path /\ m >= BarrierOption.B self) \/
  (down_kind (BarrierOption.barrier_type self) /\
   exists m, is_min m path /\ m <= BarrierOption.B self).

(** The vanilla payoff in the words of the specification. *)
Definition is_vanilla (self : BarrierOption.t) (final_price v : R) : Prop :=
  (BarrierOption.option_type self = "call"%string ->
   v = Rmax (final_price - BarrierOption.K self) 0) /\
  (BarrierOption.option_type self = "put"%string ->
   v = Rmax (BarrierOption.K self - final_price) 0).

(** The same contract with another barrier type. *)
Definition with_barrier_type (self : BarrierOption.t) (barrier_type : string)
    : BarrierOption.t :=
  BarrierOption.mk (BarrierOption.option_type self) barrier_type
    (BarrierOption.S0 self) (BarrierOption.K self) (BarrierOption.B self)
    (BarrierOption.T self) (BarrierOption.volatility self)
    (BarrierOption.risk_free_rate self).

(** A seed that [np.random.seed] accepts, or no seed at all. *)
Definition seed_ok (seed : option Z) : Prop :=
  match seed with
  | Some s => (0 <= s < 2 ^ 32)%Z
  | None => True
  end.

(** The generator state once the optional seed has been applied and nothing
    has been drawn. *)
Definition after_seed {rng : Type} (seed_state : Z -> rng) (seed : option Z)
    (g : rng) : rng :=
  match seed with
  | Some s => if ((0 <=? s) && (s <? 2 ^ 32))%Z then seed_state s else g
  | None => g
  end.

(** The deterministic forward path of the specification: element [k] is
    [S0 * exp(r * T * k / steps)], for [k] from 0 to [steps]. *)
Definition forward_path (self : BarrierOption.t) (steps : Z) : list R :=
  map (fun k => BarrierOption.S0 self
                * exp (BarrierOption.risk_free_rate self * BarrierOption.T self
                       * INR k / IZR steps))
    (seq 0 (S (Z.to_nat steps))).

(** A contract and a batch of two paths used to exercise the theorems:
    an up-and-out call struck at 100 with the barrier at 120; the first path
    crosses the barrier, the second does not. *)
Definition example_contract : BarrierOption.t :=
  BarrierOption.mk "call" "up_and_out" 100 100 120 1 0.2 0.05.

Definition example_batch : list (list R) :=
  [[100; 110; 125; 118]; [100; 105; 110; 115]].

(** A matrix of draws for two paths of three steps. *)
Definition example_draws : list (list R) :=
  [[0; 1; -2]; [-1; 0; 3]].

(** The same contract on an underlying without volatility. *)
Definition example_calm_contract : BarrierOption.t :=
  BarrierOption.mk "call" "up_and_out" 100 100 120 1 0 0.05.

(** A generator to run the pricing call on: its state counts the draws
    made so far, seeding sets the count to the seed, and the draw made in
    state [g] is [g - 2]. *)
Definition example_seed_state (s : Z) : nat := Z.to_nat s.

Definition example_standard_normal (g : nat) : R * nat := (INR g - 2, S g).

(** ** The plot branch and the command line *)

(** [np.linspace(start, stop, num)]: [num] evenly spaced samples, the last
    one set to [stop]; a negative [num] is refused. *)
Definition np_linspace (start stop : R) (num : Z) : result (list R) :=
  if (num <? 0)%Z then Raise ValueError
  else
    let n := Z.to_nat num in
    let step := (stop - start) / INR (n - 1) in
    let y := map (fun i => INR i * step + start) (seq 0 n) in
    if (1 <? n)%nat then Ok (removelast y ++ [stop]) else Ok y.

(** [plt.plot(x, y)]: one curve; [x] and [y] must have the same length. *)
Definition plt_plot (x y : list R) : result (list R * list R) :=
  if (length x =? length y)%nat then Ok (x, y) else Raise ValueError.

(** Lines 185-186: one curve per path, against the time grid. *)
Fixpoint plot_loop (self : BarrierOption.t) (steps : Z)
    (end_of_step_price : list (list R)) (iters : list nat)
    : result (list (list R * list R)) :=
  match iters with
  | [] => Ok []
  | iter :: rest =>
      grid <- np_linspace 0 (BarrierOption.T self) (steps + 1) ;;
      curve <- plt_plot grid (nth iter end_of_step_price []) ;;
      curves <- plot_loop self steps end_of_step_price rest ;;
      Ok (curve :: curves)
  end.

Section CommandLine.

Variable rng : Type.
Variable seed_state : Z -> rng.
Variable standard_normal : rng -> R * rng.

Notation "x <~ m ;; k" := (bind m (fun x => k))
  (at level 61, m at next level, right associativity).

(** [monte_carlo_pricing(steps, num_iters, plot=plot, seed=seed)] with the
    plot branch kept: the estimate together with the curves handed to
    matplotlib. *)
Definition monte_carlo_pricing_plot (self : BarrierOption.t)
    (steps num_iters : Z) (plot : bool) (seed : option Z)
    : M rng (float * list (list R * list R)) :=
  _ <~ match seed with
       | Some s => np_random_seed seed_state s
       | None => ret tt
       end ;;
  _ <~ lift (py_truediv (BarrierOption.T self) steps) ;;
  Zm <~ np_random_normal standard_normal num_iters steps ;;
  let end_of_step_price := BarrierOption.end_of_step_price self steps Zm in
  estimated_value <~ lift (BarrierOption.estimated_value self end_of_step_price) ;;
  if plot
  then
    curves <~ lift (plot_loop self steps end_of_step_price
                      (seq 0 (Z.to_nat num_iters))) ;;
    ret (estimated_value, curves)
  else ret (estimated_value, []).

(** [cli], from the parsed arguments on: the contract is built, then priced
    with [plot=True] and no seed; the estimate is dropped. *)
Definition cli (option_type barrier_type : string)
    (S0 K B T volatility risk_free_rate : R) (steps num_iters : Z) : M rng unit :=
  option <~ lift (BarrierOption.__init__ option_type barrier_type S0 K B T
                    volatility risk_free_rate) ;;
  _ <~ monte_carlo_pricing_plot option steps num_iters true None ;;
  ret tt.

End CommandLine.

Arguments monte_carlo_pricing_plot {rng} seed_state standard_normal self steps
  num_iters plot seed.
Arguments cli {rng} seed_state standard_normal option_type barrier_type S0 K B T
  volatility risk_free_rate steps num_iters.

(** The estimate of a pricing outcome, the curves dropped. *)
Definition estimate_of {A C : Type} (r : result (A * C)) : result A :=
  match r with
  | Ok (a, _) => Ok a
  | Raise e => Raise e
  end.

(** The same contract with another option type, or another barrier level. *)
Definition with_option_type (self : BarrierOption.t) (option_type : string)
    : BarrierOption.t :=
  BarrierOption.mk option_type (BarrierOption.barrier_type self)
    (BarrierOption.S0 self) (BarrierOption.K self) (BarrierOption.B self)
    (BarrierOption.T self) (BarrierOption.volatility self)
    (BarrierOption.risk_free_rate self).

Definition with_barrier_level (self : BarrierOption.t) (B : R)
    : BarrierOption.t :=
  BarrierOption.mk (BarrierOption.option_type self)
    (BarrierOption.barrier_type self)
    (BarrierOption.S0 self) (BarrierOption.K self) B
    (BarrierOption.T self) (BarrierOption.volatility self)
    (BarrierOption.risk_free_rate self).

(** The factor of one step of the path generator for the draw [z]. *)
Definition step_factor (self : BarrierOption.t) (steps : Z) (z : R) : R :=
  exp ((BarrierOption.risk_free_rate self
        - 0.5 * BarrierOption.volatility self ^ 2)
       * (BarrierOption.T self / IZR steps)
       + BarrierOption.volatility self
         * sqrt (BarrierOption.T self / IZR steps) * z).

(** ** Construction *)

Import BarrierOption.

Lemma Rltb_true x y : Rltb x y = true <-> x < y.
Proof. unfold Rltb. destruct (Rlt_dec x y); split; intros; try easy. Qed.

Lemma Rgtb_true x y : Rgtb x y = true <-> x > y.
Proof. unfold Rgtb. destruct (Rgt_dec x y); split; intros; try easy. Qed.

Lemma Rgeb_true x y : Rgeb x y = true <-> x >= y.
Proof. unfold Rgeb. destruct (Rge_dec x y); split; intros; try easy. Qed.

Lemma Rleb_true x y : Rleb x y = true <-> x <= y.
Proof. unfold Rleb. destruct (Rle_dec x y); split; intros; try easy. Qed.

Lemma init_cases ot bt s0 k b t vol r :
  (rejected ot bt vol /\ __init__ ot bt s0 k b t vol r = Raise SystemExit) \/
  (~ rejected ot bt vol /\
   __init__ ot bt s0 k b t vol r = Ok (mk ot bt s0 k b t vol r)).
Proof.
  unfold __init__, rejected, bad_option_type, bad_barrier_type.
  destruct (String.eqb_spec ot "call"); destruct (String.eqb_spec ot "put");
    cbn [negb andb]; try (left; split; [tauto | reflexivity]);
  destruct (String.eqb_spec bt "up_and_out");
  destruct (String.eqb_spec bt "down_and_out");
  destruct (String.eqb_spec bt "up_and_in");
  destruct (String.eqb_spec bt "down_and_in");
    cbn [negb andb]; try (left; split; [tauto | reflexivity]);
  destruct (Rltb vol 0) eqn:E1; destruct (Rgtb vol 1) eqn:E2; cbn [orb];
  try apply Rltb_true in E1; try apply Rgtb_true in E2;
  try (left; split; [tauto | reflexivity]);
  right; (split; [| reflexivity]);
  assert (~ vol < 0) by (rewrite <- Rltb_true; congruence);
  assert (~ vol > 1) by (rewrite <- Rgtb_true; congruence);
  intuition congruence.
Qed.

(** C5, as the code has it: construction ends the process exactly when the
    option type is neither "call" nor "put", or the barrier type is none of
    the four names, or the volatility is below 0 or above 1; in every other
    case, whatever the prices, the maturity and the rate are, it succeeds
    and stores the eight arguments unchanged. *)
Theorem init_rejects_exactly_kinds_and_volatility :
  forall ot bt s0 k b t vol r,
    (rejected ot bt vol /\ __init__ ot bt s0 k b t vol r = Raise SystemExit) \/
    (~ rejected ot bt vol /\
     __init__ ot bt s0 k b t vol r = Ok (mk ot bt s0 k b t vol r)).
Proof. intros. apply init_cases. Qed.

(** C5 as stated fails: a negative initial price, a zero strike, a negative
    barrier and a zero maturity are all accepted. *)
Lemma init_accepts_non_positive_prices :
  __init__ "call" "up_and_out" (-1) 0 (-5) 0 0.5 0.05
  = Ok (mk "call" "up_and_out" (-1) 0 (-5) 0 0.5 0.05).
Proof.
  destruct (init_cases "call" "up_and_out" (-1) 0 (-5) 0 0.5 0.05)
    as [[Hbad _] | [_ H]]; [exfalso | exact H].
  unfold rejected, bad_option_type, bad_barrier_type in Hbad.
  destruct Hbad as [[H _] | [[H _] | [H | H]]]; try congruence; lra.
Qed.

(** ** Row reductions *)

Lemma fold_Rmax_is_max xs : forall x, is_max (fold_left Rmax xs x) (x :: xs).
Proof.
  induction xs as [| y xs IH]; intros x; cbn [fold_left].
  - split; [now left | intros z [<- | []]; lra].
  - destruct (IH (Rmax x y)) as [Hin Hub]. split.
    + destruct Hin as [Heq | Hin]; [| now right; right].
      rewrite <- Heq. unfold Rmax. destruct (Rle_dec x y); [right; now left | now left].
    + intros z Hz.
      assert (Hm : Rmax x y <= fold_left Rmax xs (Rmax x y)) by (apply Hub; now left).
      destruct Hz as [<- | [<- | Hz]].
      * pose proof (Rmax_l x y). lra.
      * pose proof (Rmax_r x y). lra.
      * apply Hub. now right.
Qed.

Lemma fold_Rmin_is_min xs : forall x, is_min (fold_left Rmin xs x) (x :: xs).
Proof.
  induction xs as [| y xs IH]; intros x; cbn [fold_left].
  - split; [now left | intros z [<- | []]; lra].
  - destruct (IH (Rmin x y)) as [Hin Hlb]. split.
    + destruct Hin as [Heq | Hin]; [| now right; right].
      rewrite <- Heq. unfold Rmin. destruct (Rle_dec x y); [now left | right; now left].
    + intros z Hz.
      assert (Hm : fold_left Rmin xs (Rmin x y) <= Rmin x y) by (apply Hlb; now left).
      destruct Hz as [<- | [<- | Hz]].
      * pose proof (Rmin_l x y). lra.
      * pose proof (Rmin_r x y). lra.
      * apply Hlb. now right.
Qed.

Lemma is_max_unique m m' l : is_max m l -> is_max m' l -> m = m'.
Proof.
  intros [Hin Hub] [Hin' Hub']. apply Hub' in Hin. apply Hub in Hin'. lra.
Qed.

Lemma is_min_unique m m' l : is_min m l -> is_min m' l -> m = m'.
Proof.
  intros [Hin Hlb] [Hin' Hlb']. apply Hlb' in Hin. apply Hlb in Hin'. lra.
Qed.

Lemma np_max_spec row :
  row <> [] -> exists m, np_max row = Ok m /\ is_max m row.
Proof.
  destruct row as [| x xs]; [congruence | intros _].
  eexists; split; [reflexivity | apply fold_Rmax_is_max].
Qed.

Lemma np_min_spec row :
  row <> [] -> exists m, np_min row = Ok m /\ is_min m row.
Proof.
  destruct row as [| x xs]; [congruence | intros _].
  eexists; split; [reflexivity | apply fold_Rmin_is_min].
Qed.

Lemma axis1_spec (f : list R -> result R) (P : R -> list R -> Prop) :
  (forall row, row <> [] -> exists m, f row = Ok m /\ P m row) ->
  forall a, Forall (fun row => row <> []) a ->
  exists ms, axis1 f a = Ok ms /\ length ms = length a /\
             forall i, (i < length a)%nat -> P (nth i ms 0) (nth i a []).
Proof.
  intros Hf a Ha. induction Ha as [| row rows Hrow _ IH]; cbn [axis1].
  - exists []. repeat split. cbn. lia.
  - destruct (Hf row Hrow) as (m & -> & Hm). destruct IH as (ms & -> & Hlen & Hnth).
    exists (m :: ms). cbn [rbind length]. repeat split; [now f_equal |].
    intros [| i] Hi; cbn [nth]; [exact Hm | apply Hnth; cbn in Hi; lia].
Qed.

Lemma nth_map_in {X Y : Type} (f : X -> Y) (l : list X) (dx : X) (dy : Y) :
  forall i, (i < length l)%nat -> nth i (map f l) dy = f (nth i l dx).
Proof.
  induction l as [| x l IH]; intros i Hi; cbn in Hi; [lia |].
  destruct i as [| i]; cbn [map nth]; [reflexivity | apply IH; lia].
Qed.

Lemma nth_np_where cond a i :
  (i < length a)%nat ->
  nth i (np_where cond a) 0%Z = if cond (nth i a 0) then 1%Z else 0%Z.
Proof. intros Hi. unfold np_where. now rewrite (nth_map_in _ _ 0). Qed.

(** What [barrier_reached] holds for a batch of non-empty paths. *)
Lemma well_shaped_nonempty price_series :
  well_shaped price_series -> Forall (fun row => row <> []) price_series.
Proof.
  intros (width & Hw & Hall). eapply Forall_impl; [| exact Hall].
  intros row Hrow E. rewrite E in Hrow. cbn in Hrow. lia.
Qed.

Lemma np_array_well_shaped price_series :
  well_shaped price_series -> np_array price_series = Ok price_series.
Proof.
  intros (width & _ & Hall). destruct price_series as [| row rows]; [reflexivity |].
  inversion Hall as [| ? ? Hrow Hrows]; subst. cbn [np_array].
  replace (forallb (fun r => (length r =? length row)%nat) rows) with true;
    [reflexivity |].
  symmetry. apply forallb_forall. intros r Hr. apply Nat.eqb_eq.
  rewrite Forall_forall in Hrows. now apply Hrows.
Qed.

Lemma well_shaped_nth price_series i :
  well_shaped price_series -> (i < length price_series)%nat ->
  well_shaped [nth i price_series []].
Proof.
  intros (width & Hw & Hall) Hi. exists width. split; [exact Hw |].
  constructor; [| constructor]. rewrite Forall_forall in Hall.
  apply Hall, nth_In, Hi.
Qed.

Lemma barrier_reached_spec self price_series :
  well_shaped price_series ->
  exists reached,
    barrier_reached self price_series = Ok reached /\
    length reached = length price_series /\
    forall i, (i < length price_series)%nat ->
      if is_up self
      then exists m, is_max m (nth i price_series []) /\
                     nth i reached 0%Z = if Rgeb m (B self) then 1%Z else 0%Z
      else exists m, is_min m (nth i price_series []) /\
                     nth i reached 0%Z = if Rleb m (B self) then 1%Z else 0%Z.
Proof.
  intros Hshape. pose proof (well_shaped_nonempty _ Hshape) as Hne.
  unfold barrier_reached. rewrite (np_array_well_shaped _ Hshape). cbn [rbind].
  destruct (is_up self).
  - destruct (axis1_spec np_max is_max np_max_spec _ Hne) as (ms & -> & Hlen & Hnth).
    eexists; split; [reflexivity |]. unfold np_where. rewrite length_map.
    split; [exact Hlen |]. intros i Hi. exists (nth i ms 0). split; [now apply Hnth |].
    apply nth_np_where. lia.
  - destruct (axis1_spec np_min is_min np_min_spec _ Hne) as (ms & -> & Hlen & Hnth).
    eexists; split; [reflexivity |]. unfold np_where. rewrite length_map.
    split; [exact Hlen |]. intros i Hi. exists (nth i ms 0). split; [now apply Hnth |].
    apply nth_np_where. lia.
Qed.

(** ** The payoff loops *)

Lemma fold_left_snoc {A X : Type} (f : list X -> A -> list X) (g : A -> X) :
  (forall p i, f p i = p ++ [g i]) ->
  forall l acc, fold_left f l acc = acc ++ map g l.
Proof.
  intros Hf l. induction l as [| a l IH]; intros acc; cbn [fold_left map].
  - now rewrite app_nil_r.
  - rewrite IH, Hf, <- app_assoc. reflexivity.
Qed.

Lemma payoff_loop_out_map self price_series reached :
  payoff_loop_out self price_series reached =
  map (fun iter => if (nth iter reached 0 =? 1)%Z then 0
                   else vanilla_payoff self (item_last price_series iter))
      (seq 0 (length reached)).
Proof.
  unfold payoff_loop_out. rewrite fold_left_snoc with (g := fun iter =>
    if (nth iter reached 0 =? 1)%Z then 0
    else vanilla_payoff self (item_last price_series iter)); [reflexivity |].
  intros p i. now destruct (nth i reached 0 =? 1)%Z.
Qed.

Lemma payoff_loop_in_map self price_series reached :
  payoff_loop_in self price_series reached =
  map (fun iter => if (nth iter reached 0 =? 0)%Z then 0
                   else vanilla_payoff self (item_last price_series iter))
      (seq 0 (length reached)).
Proof.
  unfold payoff_loop_in. rewrite fold_left_snoc with (g := fun iter =>
    if (nth iter reached 0 =? 0)%Z then 0
    else vanilla_payoff self (item_last price_series iter)); [reflexivity |].
  intros p i. now destruct (nth i reached 0 =? 0)%Z.
Qed.

Lemma nth_map_seq (g : nat -> R) n i :
  (i < n)%nat -> nth i (map g (seq 0 n)) 0 = g i.
Proof.
  intros Hi. rewrite (nth_map_in _ _ 0%nat) by now rewrite length_seq.
  now rewrite seq_nth.
Qed.

(** ** Per-path payoff *)

Lemma valid_inv self :
  valid self ->
  (option_type self = "call"%string \/ option_type self = "put"%string) /\
  (up_kind (barrier_type self) \/ down_kind (barrier_type self)) /\
  (out_kind (barrier_type self) \/ in_kind (barrier_type self)) /\
  0 <= volatility self <= 1.
Proof.
  unfold valid. intros Hv.
  destruct (init_cases (option_type self) (barrier_type self) (S0 self) (K self)
              (B self) (T self) (volatility self) (risk_free_rate self))
    as [[_ H] | [Hok _]]; [congruence |].
  unfold rejected, bad_option_type, bad_barrier_type, up_kind, down_kind,
    out_kind, in_kind in *.
  destruct (string_dec (option_type self) "call");
  destruct (string_dec (option_type self) "put");
  destruct (string_dec (barrier_type self) "up_and_out");
  destruct (string_dec (barrier_type self) "down_and_out");
  destruct (string_dec (barrier_type self) "up_and_in");
  destruct (string_dec (barrier_type self) "down_and_in");
  destruct (Rlt_dec (volatility self) 0); destruct (Rgt_dec (volatility self) 1);
  try tauto; repeat split; try tauto; lra.
Qed.

Lemma vanilla_payoff_is_vanilla self p : is_vanilla self p (vanilla_payoff self p).
Proof.
  unfold is_vanilla, vanilla_payoff.
  split; intros ->; reflexivity.
Qed.

Lemma vanilla_payoff_nonneg self p : 0 <= vanilla_payoff self p.
Proof.
  unfold vanilla_payoff. destruct (option_type self =? "call")%string; apply Rmax_r.
Qed.

(** The flag of path [i] is 1 exactly when the path is activated. *)
Lemma reached_flag_activated self path flag :
  up_kind (barrier_type self) \/ down_kind (barrier_type self) ->
  (if is_up self
   then exists m, is_max m path /\ flag = if Rgeb m (B self) then 1%Z else 0%Z
   else exists m, is_min m path /\ flag = if Rleb m (B self) then 1%Z else 0%Z) ->
  (flag = 1%Z /\ activated self path) \/ (flag = 0%Z /\ ~ activated self path).
Proof.
  unfold activated, up_kind, down_kind, is_up.
  intros [[Hbt | Hbt] | [Hbt | Hbt]]; rewrite !Hbt; cbn [String.eqb Ascii.eqb Bool.eqb orb andb];
    intros (m & Hm & ->).
  1,2: destruct (Rgeb m (B self)) eqn:E;
    [ left; split; [reflexivity |]; left; split; [tauto |];
      exists m; split; [exact Hm | now apply Rgeb_true]
    | right; split; [reflexivity |];
      intros [[_ (m' & Hm' & Hge)] | [[Hd | Hd] _]]; try discriminate Hd;
      rewrite (is_max_unique _ _ _ Hm Hm') in E; apply Rgeb_true in Hge; congruence ].
  1,2: destruct (Rleb m (B self)) eqn:E;
    [ left; split; [reflexivity |]; right; split; [tauto |];
      exists m; split; [exact Hm | now apply Rleb_true]
    | right; split; [reflexivity |];
      intros [[[Hd | Hd] _] | [_ (m' & Hm' & Hle)]]; try discriminate Hd;
      rewrite (is_min_unique _ _ _ Hm Hm') in E; apply Rleb_true in Hle; congruence ].
Qed.

(** Each entry of the payoff vector, by barrier type and activation. *)
Lemma contract_payoff_nth self price_series :
  up_kind (barrier_type self) \/ down_kind (barrier_type self) ->
  well_shaped price_series ->
  exists payoff,
    contract_payoff self price_series = Ok payoff /\
    length payoff = length price_series /\
    forall i, (i < length price_series)%nat ->
      let path := nth i price_series [] in
      let vanilla := vanilla_payoff self (last path 0) in
      (out_kind (barrier_type self) ->
       (activated self path /\ nth i payoff 0 = 0) \/
       (~ activated self path /\ nth i payoff 0 = vanilla)) /\
      (in_kind (barrier_type self) ->
       (activated self path /\ nth i payoff 0 = vanilla) \/
       (~ activated self path /\ nth i payoff 0 = 0)).
Proof.
  intros Hkind Hne.
  destruct (barrier_reached_spec self price_series Hne) as (reached & Hbr & Hlen & Hflag).
  assert (Hact : forall i, (i < length price_series)%nat ->
            (nth i reached 0%Z = 1%Z /\ activated self (nth i price_series [])) \/
            (nth i reached 0%Z = 0%Z /\ ~ activated self (nth i price_series [])))
    by (intros i Hi; apply reached_flag_activated; [exact Hkind | now apply Hflag]).
  clear Hflag. unfold contract_payoff. rewrite Hbr. cbn [rbind].
  unfold up_kind, down_kind, out_kind, in_kind, is_up in *.
  destruct Hkind as [[Hbt | Hbt] | [Hbt | Hbt]]; rewrite !Hbt;
    cbn [String.eqb Ascii.eqb Bool.eqb orb andb];
    rewrite ?payoff_loop_out_map, ?payoff_loop_in_map;
    (eexists; split; [reflexivity |]);
    (split; [now rewrite length_map, length_seq |]);
    intros i Hi; cbn zeta; rewrite nth_map_seq by lia; unfold item_last;
    (split; intros [Hk | Hk]; try discriminate Hk);
    destruct (Hact i Hi) as [[-> Ha] | [-> Ha]]; cbn [Z.eqb Pos.eqb]; tauto.
Qed.

Lemma example_contract_valid : valid example_contract.
Proof.
  unfold valid, example_contract; cbn.
  destruct (init_cases "call" "up_and_out" 100 100 120 1 0.2 0.05)
    as [[Hbad _] | [_ H]]; [exfalso | exact H].
  unfold rejected, bad_option_type, bad_barrier_type in Hbad.
  destruct Hbad as [[H _] | [[H _] | [H | H]]]; try congruence; lra.
Qed.

Lemma example_batch_rectangular : rectangular example_batch.
Proof.
  split; [discriminate |]. exists 4%nat. split; [lia | repeat constructor].
Qed.

(** C2: for a valid contract and a batch of at least one path, all paths of
    one length of at least one, the payoff vector is index-aligned with the
    batch and its entry for a path is: for the two [_and_out] types, the
    vanilla payoff when the path is not activated and 0 when it is; for the
    two [_and_in] types, the vanilla payoff when it is activated and 0 when
    it is not; the vanilla payoff being max(final - K, 0) for a call and
    max(K - final, 0) for a put, with final the last element of the path. *)
Theorem contract_payoff_per_path :
  forall self price_series,
    valid self ->
    rectangular price_series ->
    exists payoff,
      contract_payoff self price_series = Ok payoff /\
      length payoff = length price_series /\
      forall i, (i < length price_series)%nat ->
        let path := nth i price_series [] in
        exists vanilla,
          is_vanilla self (last path 0) vanilla /\
          (out_kind (barrier_type self) ->
           (~ activated self path -> nth i payoff 0 = vanilla) /\
           (activated self path -> nth i payoff 0 = 0)) /\
          (in_kind (barrier_type self) ->
           (activated self path -> nth i payoff 0 = vanilla) /\
           (~ activated self path -> nth i payoff 0 = 0)).
Proof.
  intros self price_series Hv [_ Hne].
  destruct (valid_inv self Hv) as (_ & Hkind & _).
  destruct (contract_payoff_nth self price_series Hkind Hne) as (payoff & Hp & Hlen & Hnth).
  exists payoff. repeat split; try assumption.
  intros i Hi path. exists (vanilla_payoff self (last path 0)).
  split; [apply vanilla_payoff_is_vanilla |].
  destruct (Hnth i Hi) as [Hout Hin]. fold path in Hout, Hin.
  split; intros Hk; [specialize (Hout Hk) | specialize (Hin Hk)]; tauto.
Qed.

Lemma contract_payoff_per_path_example :
  exists payoff,
    contract_payoff example_contract example_batch = Ok payoff /\
    length payoff = length example_batch /\
    forall i, (i < length example_batch)%nat ->
      let path := nth i example_batch [] in
      exists vanilla,
        is_vanilla example_contract (last path 0) vanilla /\
        (out_kind (barrier_type example_contract) ->
         (~ activated example_contract path -> nth i payoff 0 = vanilla) /\
         (activated example_contract path -> nth i payoff 0 = 0)) /\
        (in_kind (barrier_type example_contract) ->
         (activated example_contract path -> nth i payoff 0 = vanilla) /\
         (~ activated example_contract path -> nth i payoff 0 = 0)).
Proof.
  apply (contract_payoff_per_path example_contract example_batch).
  - exact example_contract_valid.
  - exact example_batch_rectangular.
Defined.

Ltac decide_Rcmp d :=
  first [ destruct d; [ | exfalso; lra ] | destruct d; [ exfalso; lra | ] ].

Ltac eval_Rcmp :=
  repeat match goal with
    | |- context [Rle_dec ?a ?b] => decide_Rcmp (Rle_dec a b)
    | |- context [Rge_dec ?a ?b] => decide_Rcmp (Rge_dec a b)
    | |- context [Rlt_dec ?a ?b] => decide_Rcmp (Rlt_dec a b)
    | |- context [Rgt_dec ?a ?b] => decide_Rcmp (Rgt_dec a b)
    end.

Example contract_payoff_example_batch :
  contract_payoff example_contract example_batch = Ok [0; 15].
Proof.
  unfold contract_payoff, barrier_reached, is_up, example_contract, example_batch.
  cbn. unfold Rgeb, Rmax. eval_Rcmp. cbn.
  unfold payoff_loop_out, vanilla_payoff, item_last. cbn.
  unfold Rmax. eval_Rcmp. repeat f_equal. lra.
Qed.

(** ** Path generation *)

Lemma big_prod_ext f g k :
  (forall j, (1 <= j <= k)%nat -> f j = g j) -> big_prod f k = big_prod g k.
Proof.
  induction k as [| k IH]; intros H; cbn [big_prod]; [reflexivity |].
  rewrite IH by (intros; apply H; lia). rewrite (H (S k)) by lia. reflexivity.
Qed.

Lemma big_prod_cons x xs n :
  big_prod (fun j => nth (j - 1) (x :: xs) 0) (S n) =
  x * big_prod (fun j => nth (j - 1) xs 0) n.
Proof.
  induction n as [| n IH].
  - cbn. lra.
  - change (big_prod (fun j => nth (j - 1) (x :: xs) 0) (S (S n)))
      with (big_prod (fun j => nth (j - 1) (x :: xs) 0) (S n)
            * nth (S (S n) - 1) (x :: xs) 0).
    rewrite IH. cbn [big_prod].
    replace (S (S n) - 1)%nat with (S n) by lia.
    replace (S n - 1)%nat with n by lia. cbn [nth]. ring.
Qed.

Lemma cumprod_from_nth row :
  forall acc k, (k < length row)%nat ->
    nth k (cumprod_from acc row) 0 =
    acc * big_prod (fun j => nth (j - 1) row 0) (S k).
Proof.
  induction row as [| x xs IH]; intros acc k Hk; cbn in Hk; [lia |].
  rewrite (big_prod_cons x xs k).
  destruct k as [| k]; cbn [cumprod_from nth].
  - cbn. ring.
  - rewrite IH by lia. ring.
Qed.

Lemma np_cumprod_nth row k :
  (k < length row)%nat ->
  nth k (np_cumprod row) 0 = big_prod (fun j => nth (j - 1) row 0) (S k).
Proof.
  destruct row as [| x xs]; cbn [length]; intros Hk; [lia |].
  rewrite (big_prod_cons x xs k).
  destruct k as [| k]; cbn [np_cumprod nth].
  - cbn. ring.
  - now rewrite cumprod_from_nth by lia.
Qed.

Lemma cumprod_from_length row : forall acc, length (cumprod_from acc row) = length row.
Proof. induction row; intros; cbn; [reflexivity | now rewrite IHrow]. Qed.

Lemma np_cumprod_length row : length (np_cumprod row) = length row.
Proof. destruct row; cbn; [reflexivity | now rewrite cumprod_from_length]. Qed.

Lemma end_of_step_price_length self steps Zm :
  length (end_of_step_price self steps Zm) = length Zm.
Proof. unfold end_of_step_price. apply length_map. Qed.

Lemma end_of_step_price_row self steps Zm i :
  (i < length Zm)%nat ->
  nth i (end_of_step_price self steps Zm) [] =
  (S0 self * 1) ::
  map (Rmult (S0 self))
    (np_cumprod
       (map (fun z => exp ((risk_free_rate self - 0.5 * volatility self ^ 2)
                           * (T self / IZR steps)
                           + volatility self * sqrt (T self / IZR steps) * z))
          (nth i Zm []))).
Proof.
  intros Hi. unfold end_of_step_price. now rewrite (nth_map_in _ _ []).
Qed.

Lemma end_of_step_price_well_shaped self steps Zm :
  Forall (fun Zrow => length Zrow = Z.to_nat steps) Zm ->
  well_shaped (end_of_step_price self steps Zm).
Proof.
  intros Hshape. exists (S (Z.to_nat steps)). split; [lia |].
  unfold end_of_step_price. apply Forall_map.
  eapply Forall_impl; [| exact Hshape]. intros Zrow Hrow. cbn [length].
  now rewrite length_map, np_cumprod_length, length_map, Hrow.
Qed.

Lemma end_of_step_price_nth self steps Zm i k :
  (i < length Zm)%nat -> (1 <= k <= length (nth i Zm []))%nat ->
  nth k (nth i (end_of_step_price self steps Zm) []) 0 =
  S0 self *
  big_prod (fun j => exp ((risk_free_rate self - 0.5 * volatility self ^ 2)
                          * (T self / IZR steps)
                          + volatility self * sqrt (T self / IZR steps)
                            * nth (j - 1) (nth i Zm []) 0)) k.
Proof.
  intros Hi Hk. rewrite end_of_step_price_row by exact Hi.
  destruct k as [| k]; [lia |]. cbn [nth].
  rewrite (nth_map_in _ _ 0) by (rewrite np_cumprod_length, length_map; lia).
  rewrite np_cumprod_nth by (rewrite length_map; lia).
  f_equal. apply big_prod_ext. intros j Hj.
  now rewrite (nth_map_in _ _ 0) by lia.
Qed.

Section Sampler.

Context {rng : Type} (standard_normal : rng -> R * rng).

Lemma normal_row_length m : forall g, length (fst (normal_row standard_normal m g)) = m.
Proof.
  induction m as [| m IH]; intros g; cbn [normal_row]; [reflexivity |].
  destruct (standard_normal g) as [z g1]. specialize (IH g1).
  destruct (normal_row standard_normal m g1) as [zs g2]. cbn in *. now f_equal.
Qed.

Lemma normal_rows_shape n m :
  forall g, length (fst (normal_rows standard_normal n m g)) = n /\
            Forall (fun Zrow => length Zrow = m) (fst (normal_rows standard_normal n m g)).
Proof.
  induction n as [| n IH]; intros g; cbn [normal_rows]; [split; [reflexivity | constructor] |].
  pose proof (normal_row_length m g) as Hrow.
  destruct (normal_row standard_normal m g) as [row g1]. specialize (IH g1).
  destruct (normal_rows standard_normal n m g1) as [rows g2]. cbn in *.
  destruct IH as [Hlen Hall]. split; [now f_equal | now constructor].
Qed.

Lemma np_random_normal_shape n m g :
  (0 <= n)%Z -> (0 <= m)%Z ->
  exists Zm g',
    np_random_normal standard_normal n m g = (Ok Zm, g') /\
    length Zm = Z.to_nat n /\
    Forall (fun Zrow => length Zrow = Z.to_nat m) Zm.
Proof.
  intros Hn Hm. unfold np_random_normal.
  replace (n <? 0)%Z with false by (symmetry; apply Z.ltb_ge; lia).
  replace (m <? 0)%Z with false by (symmetry; apply Z.ltb_ge; lia).
  cbn [orb]. pose proof (normal_rows_shape (Z.to_nat n) (Z.to_nat m) g) as [Hl Hs].
  destruct (normal_rows standard_normal (Z.to_nat n) (Z.to_nat m) g) as [Zm g'].
  exists Zm, g'. cbn in *. tauto.
Qed.

End Sampler.

(** C4: for a contract with a non-negative maturity, on a grid with at
    least one step and one path, whatever the generator draws, the sampler
    returns a matrix Z and the batch built from it has [num_iters] paths of
    [steps + 1] elements; element 0 of each path is the initial price and
    element k, for k from 1 to [steps], is the initial price times the
    product over j = 1..k of exp((r - 0.5 vol^2) dt + vol sqrt(dt) Z_j),
    with dt = T / steps. *)
Theorem gbm_batch_closed_form :
  forall (rng : Type) (standard_normal : rng -> R * rng) (g : rng)
         (self : BarrierOption.t) (steps num_iters : Z),
    0 <= T self ->
    (1 <= steps)%Z -> (1 <= num_iters)%Z ->
    exists Zm g',
      np_random_normal standard_normal num_iters steps g = (Ok Zm, g') /\
      let dt := T self / IZR steps in
      let paths := end_of_step_price self steps Zm in
      length paths = Z.to_nat num_iters /\
      forall i, (i < Z.to_nat num_iters)%nat ->
        length (nth i paths []) = S (Z.to_nat steps) /\
        nth 0 (nth i paths []) 0 = S0 self /\
        forall k, (1 <= k <= Z.to_nat steps)%nat ->
          nth k (nth i paths []) 0 =
          S0 self *
          big_prod (fun j => exp ((risk_free_rate self - 0.5 * volatility self ^ 2) * dt
                                  + volatility self * sqrt dt
                                    * nth (j - 1) (nth i Zm []) 0)) k.
Proof.
  intros rng standard_normal g self steps num_iters _ Hs Hn.
  destruct (np_random_normal_shape standard_normal num_iters steps g)
    as (Zm & g' & Hdraw & Hlen & Hshape); [lia | lia |].
  exists Zm, g'. split; [exact Hdraw |]. cbn zeta.
  split; [now rewrite end_of_step_price_length |].
  intros i Hi. rewrite <- Hlen in Hi.
  assert (Hrow : length (nth i Zm []) = Z.to_nat steps).
  { rewrite Forall_forall in Hshape. apply Hshape, nth_In, Hi. }
  repeat split.
  - rewrite end_of_step_price_row by exact Hi. cbn [length].
    now rewrite length_map, np_cumprod_length, length_map, Hrow.
  - rewrite end_of_step_price_row by exact Hi. cbn [nth]. ring.
  - intros k Hk. apply end_of_step_price_nth; [exact Hi | lia].
Qed.

Lemma example_contract_maturity : 0 <= T example_contract.
Proof. unfold example_contract; cbn. lra. Qed.

Lemma gbm_batch_closed_form_example :
  exists Zm g',
    np_random_normal example_standard_normal 2 3 0%nat = (Ok Zm, g') /\
    let dt := T example_contract / IZR 3 in
    let paths := end_of_step_price example_contract 3 Zm in
    length paths = Z.to_nat 2 /\
    forall i, (i < Z.to_nat 2)%nat ->
      length (nth i paths []) = S (Z.to_nat 3) /\
      nth 0 (nth i paths []) 0 = S0 example_contract /\
      forall k, (1 <= k <= Z.to_nat 3)%nat ->
        nth k (nth i paths []) 0 =
        S0 example_contract *
        big_prod (fun j => exp ((risk_free_rate example_contract
                                 - 0.5 * volatility example_contract ^ 2) * dt
                                + volatility example_contract * sqrt dt
                                  * nth (j - 1) (nth i Zm []) 0)) k.
Proof.
  apply (gbm_batch_closed_form nat example_standard_normal 0%nat example_contract 3 2).
  - exact example_contract_maturity.
  - lia.
  - lia.
Defined.

(** ** Barrier activation *)

Lemma is_up_up_kind self : up_kind (barrier_type self) -> is_up self = true.
Proof. unfold up_kind, is_up. intros [-> | ->]; reflexivity. Qed.

Lemma is_up_down_kind self : down_kind (barrier_type self) -> is_up self = false.
Proof. unfold down_kind, is_up. intros [-> | ->]; reflexivity. Qed.

Lemma flag_cases (b : bool) (flag : Z) (P : Prop) :
  (b = true <-> P) -> flag = (if b then 1%Z else 0%Z) ->
  (flag = 1%Z <-> P) /\ (flag = 0%Z <-> ~ P).
Proof.
  intros HP ->. destruct b; (split; split); intros H; try reflexivity; try discriminate.
  - now apply HP.
  - exfalso. apply H. now apply HP.
  - apply HP in H. discriminate.
  - intros HP'. apply HP in HP'. discriminate.
Qed.

(** C3: the flag the payoff evaluator computes for a path is 1 exactly when
    max(path) >= B (up types) or min(path) <= B (down types), the
    comparison being inclusive and the extremum ranging over the whole path:
    a path whose maximum is exactly B is flagged for an up type.  This holds
    on every batch of at least one path with one common length of at least
    one.  In a batch generated for a non-negative maturity and at least one
    step, whose paths all start with the initial price, every path is
    flagged when the initial price already breaches the barrier. *)
Theorem barrier_activation_inclusive :
  forall self price_series steps Zm,
    rectangular price_series ->
    0 <= T self -> (1 <= steps)%Z ->
    Forall (fun Zrow => length Zrow = Z.to_nat steps) Zm ->
    (exists reached,
       barrier_reached self price_series = Ok reached /\
       length reached = length price_series /\
       forall i, (i < length price_series)%nat ->
         let path := nth i price_series [] in
         (up_kind (barrier_type self) ->
          exists m, is_max m path /\
                    (nth i reached 0%Z = 1%Z <-> m >= B self) /\
                    (nth i reached 0%Z = 0%Z <-> ~ m >= B self)) /\
         (down_kind (barrier_type self) ->
          exists m, is_min m path /\
                    (nth i reached 0%Z = 1%Z <-> m <= B self) /\
                    (nth i reached 0%Z = 0%Z <-> ~ m <= B self)) /\
         (up_kind (barrier_type self) -> is_max (B self) path ->
          nth i reached 0%Z = 1%Z)) /\
    (exists reached,
       barrier_reached self (end_of_step_price self steps Zm) = Ok reached /\
       length reached = length Zm /\
       forall i, (i < length Zm)%nat ->
         (up_kind (barrier_type self) -> S0 self >= B self ->
          nth i reached 0%Z = 1%Z) /\
         (down_kind (barrier_type self) -> S0 self <= B self ->
          nth i reached 0%Z = 1%Z)).
Proof.
  intros self price_series steps Zm [_ Hne] _ _ Hshape. split.
  - destruct (barrier_reached_spec self price_series Hne) as (reached & Hbr & Hlen & Hflag).
    exists reached. split; [exact Hbr |]. split; [exact Hlen |].
    intros i Hi path. specialize (Hflag i Hi). fold path in Hflag.
    split; [| split].
    + intros Hk. rewrite (is_up_up_kind self Hk) in Hflag.
      destruct Hflag as (m & Hm & Hf). exists m. split; [exact Hm |].
      exact (flag_cases _ _ _ (Rgeb_true m (B self)) Hf).
    + intros Hk. rewrite (is_up_down_kind self Hk) in Hflag.
      destruct Hflag as (m & Hm & Hf). exists m. split; [exact Hm |].
      exact (flag_cases _ _ _ (Rleb_true m (B self)) Hf).
    + intros Hk HB. rewrite (is_up_up_kind self Hk) in Hflag.
      destruct Hflag as (m & Hm & Hf).
      apply (flag_cases _ _ _ (Rgeb_true m (B self)) Hf).
      rewrite (is_max_unique _ _ _ Hm HB). lra.
  - destruct (barrier_reached_spec self _
                (end_of_step_price_well_shaped self steps Zm Hshape))
      as (reached & Hbr & Hlen & Hflag).
    rewrite end_of_step_price_length in Hlen, Hflag.
    exists reached. split; [exact Hbr |]. split; [exact Hlen |].
    intros i Hi. specialize (Hflag i Hi).
    rewrite end_of_step_price_row in Hflag by exact Hi.
    split; intros Hk HB.
    + rewrite (is_up_up_kind self Hk) in Hflag.
      destruct Hflag as (m & [_ Hub] & Hf).
      apply (flag_cases _ _ _ (Rgeb_true m (B self)) Hf).
      specialize (Hub (S0 self * 1) (or_introl eq_refl)). lra.
    + rewrite (is_up_down_kind self Hk) in Hflag.
      destruct Hflag as (m & [_ Hlb] & Hf).
      apply (flag_cases _ _ _ (Rleb_true m (B self)) Hf).
      specialize (Hlb (S0 self * 1) (or_introl eq_refl)). lra.
Qed.

Lemma barrier_activation_inclusive_example :
  (exists reached,
     barrier_reached example_contract example_batch = Ok reached /\
     length reached = length example_batch /\
     forall i, (i < length example_batch)%nat ->
       let path := nth i example_batch [] in
       (up_kind (barrier_type example_contract) ->
        exists m, is_max m path /\
                  (nth i reached 0%Z = 1%Z <-> m >= B example_contract) /\
                  (nth i reached 0%Z = 0%Z <-> ~ m >= B example_contract)) /\
       (down_kind (barrier_type example_contract) ->
        exists m, is_min m path /\
                  (nth i reached 0%Z = 1%Z <-> m <= B example_contract) /\
                  (nth i reached 0%Z = 0%Z <-> ~ m <= B example_contract)) /\
       (up_kind (barrier_type example_contract) ->
        is_max (B example_contract) path ->
        nth i reached 0%Z = 1%Z)) /\
  (exists reached,
     barrier_reached example_contract
       (end_of_step_price example_contract 3 example_draws)
     = Ok reached /\
     length reached = length example_draws /\
     forall i, (i < length example_draws)%nat ->
       (up_kind (barrier_type example_contract) ->
        S0 example_contract >= B example_contract ->
        nth i reached 0%Z = 1%Z) /\
       (down_kind (barrier_type example_contract) ->
        S0 example_contract <= B example_contract ->
        nth i reached 0%Z = 1%Z)).
Proof.
  apply (barrier_activation_inclusive example_contract example_batch 3
           example_draws).
  - exact example_batch_rectangular.
  - exact example_contract_maturity.
  - lia.
  - repeat constructor.
Defined.

Example barrier_reached_example_batch :
  barrier_reached example_contract example_batch = Ok [1%Z; 0%Z].
Proof.
  unfold barrier_reached, is_up, example_contract, example_batch.
  cbn. unfold Rgeb, Rmax. eval_Rcmp. reflexivity.
Qed.

(** ** Sums and means *)

Lemma fold_left_Rplus_acc l : forall a, fold_left Rplus l a = a + np_sum l.
Proof.
  unfold np_sum. induction l as [| x l IH]; intros a; cbn [fold_left]; [ring |].
  rewrite (IH (a + x)), (IH (0 + x)). ring.
Qed.

Lemma big_sum_ext f g n :
  (forall i, (i < n)%nat -> f i = g i) -> big_sum f n = big_sum g n.
Proof.
  induction n as [| n IH]; intros H; cbn [big_sum]; [reflexivity |].
  rewrite IH by (intros; apply H; lia). rewrite (H n) by lia. reflexivity.
Qed.

Lemma np_sum_big_sum l : np_sum l = big_sum (fun i => nth i l 0) (length l).
Proof.
  induction l as [| x l IH] using rev_ind; [reflexivity |].
  unfold np_sum in *. rewrite fold_left_app. cbn [fold_left].
  rewrite length_app, Nat.add_comm. cbn [length Nat.add big_sum].
  rewrite IH, app_nth2, Nat.sub_diag by lia. cbn [nth]. f_equal.
  apply big_sum_ext. intros i Hi. now rewrite app_nth1.
Qed.

Lemma big_sum_plus f g n : big_sum (fun i => f i + g i) n = big_sum f n + big_sum g n.
Proof. induction n as [| n IH]; cbn [big_sum]; [ring | rewrite IH; ring]. Qed.

Lemma big_sum_scale f c n : big_sum (fun i => f i * c) n = big_sum f n * c.
Proof. induction n as [| n IH]; cbn [big_sum]; [ring | rewrite IH; ring]. Qed.

Lemma big_sum_const c n : big_sum (fun _ => c) n = INR n * c.
Proof.
  induction n as [| n IH]; [cbn; ring |].
  cbn [big_sum]. rewrite IH, S_INR. ring.
Qed.

Lemma big_sum_nonneg f n : (forall i, (i < n)%nat -> 0 <= f i) -> 0 <= big_sum f n.
Proof.
  induction n as [| n IH]; intros H; cbn [big_sum]; [lra |].
  assert (0 <= big_sum f n) by (apply IH; intros; apply H; lia).
  assert (0 <= f n) by (apply H; lia). lra.
Qed.

Lemma discount_form self :
  exp (- risk_free_rate self * T self) = exp (- (risk_free_rate self * T self)).
Proof. f_equal. ring. Qed.

Lemma np_mean_present_value self payoff :
  (1 <= length payoff)%nat ->
  np_mean (present_value self payoff) =
  Num (arithmetic_mean
         (fun i => nth i payoff 0 * exp (- (risk_free_rate self * T self)))
         (length payoff)).
Proof.
  intros Hlen. unfold np_mean.
  destruct (present_value self payoff) as [| v vs] eqn:E.
  - apply (f_equal (@length R)) in E. unfold present_value in E.
    rewrite length_map in E. cbn in E. lia.
  - rewrite <- E. f_equal. unfold arithmetic_mean, present_value.
    rewrite np_sum_big_sum, length_map. f_equal.
    apply big_sum_ext. intros i Hi.
    rewrite (nth_map_in _ _ 0) by exact Hi. now rewrite discount_form.
Qed.

(** Lines 179-181 on a batch whose payoff vector is known. *)
Lemma estimated_value_mean self price_series payoff :
  contract_payoff self price_series = Ok payoff ->
  (1 <= length payoff)%nat ->
  estimated_value self price_series =
  Ok (Num (arithmetic_mean
             (fun i => nth i payoff 0 * exp (- (risk_free_rate self * T self)))
             (length payoff))).
Proof.
  intros Hp Hlen. unfold estimated_value. rewrite Hp. cbn [rbind].
  now rewrite np_mean_present_value.
Qed.

(** C1: when the payoff evaluator returns a payoff vector with at least one
    entry, the pricing step returns the arithmetic mean over all i of
    payoff[i] * exp(-r T); this holds for every rate and every maturity. *)
Theorem price_is_mean_of_discounted_payoffs :
  forall self price_series payoff,
    contract_payoff self price_series = Ok payoff ->
    (1 <= length payoff)%nat ->
    estimated_value self price_series =
    Ok (Num (arithmetic_mean
               (fun i => nth i payoff 0 * exp (- (risk_free_rate self * T self)))
               (length payoff))).
Proof. intros self price_series payoff. apply estimated_value_mean. Qed.

Lemma price_is_mean_of_discounted_payoffs_example :
  estimated_value example_contract example_batch =
  Ok (Num (arithmetic_mean
             (fun i => nth i [0; 15] 0
                       * exp (- (risk_free_rate example_contract * T example_contract)))
             (length [0; 15]))).
Proof.
  apply (price_is_mean_of_discounted_payoffs example_contract example_batch [0; 15]).
  - exact contract_payoff_example_batch.
  - cbn. lia.
Defined.

(** ** Complementarity of in and out *)

Lemma out_plus_in self_out self_in price_series :
  up_kind (barrier_type self_out) \/ down_kind (barrier_type self_out) ->
  up_kind (barrier_type self_in) \/ down_kind (barrier_type self_in) ->
  out_kind (barrier_type self_out) -> in_kind (barrier_type self_in) ->
  (forall path, activated self_out path <-> activated self_in path) ->
  (forall p, vanilla_payoff self_out p = vanilla_payoff self_in p) ->
  risk_free_rate self_out = risk_free_rate self_in -> T self_out = T self_in ->
  price_series <> [] ->
  well_shaped price_series ->
  exists price_out price_in,
    estimated_value self_out price_series = Ok (Num price_out) /\
    estimated_value self_in price_series = Ok (Num price_in) /\
    price_out + price_in =
    arithmetic_mean
      (fun i => vanilla_payoff self_out (last (nth i price_series []) 0))
      (length price_series)
    * exp (- (risk_free_rate self_out * T self_out)).
Proof.
  intros Hko Hki Hout Hin Hact Hvan Hr HT Hnil Hne.
  destruct (contract_payoff_nth self_out price_series Hko Hne) as (po & Hpo & Hlo & Hno).
  destruct (contract_payoff_nth self_in price_series Hki Hne) as (pi & Hpi & Hli & Hni).
  assert (Hpos : (1 <= length price_series)%nat)
    by (destruct price_series; [congruence | cbn; lia]).
  do 2 eexists.
  split; [apply (estimated_value_mean _ _ _ Hpo); lia |].
  split; [apply (estimated_value_mean _ _ _ Hpi); lia |].
  unfold arithmetic_mean. rewrite Hlo, Hli, <- Hr, <- HT.
  rewrite !big_sum_scale.
  assert (Hsum : big_sum (fun i => nth i po 0) (length price_series)
                 + big_sum (fun i => nth i pi 0) (length price_series)
                 = big_sum (fun i => vanilla_payoff self_out
                                       (last (nth i price_series []) 0))
                     (length price_series)).
  { rewrite <- big_sum_plus. apply big_sum_ext. intros i Hi.
    destruct (Hno i Hi) as [Ho _]. destruct (Hni i Hi) as [_ Hi'].
    cbn zeta in Ho, Hi'. specialize (Ho Hout). specialize (Hi' Hin).
    rewrite <- Hvan in Hi'. specialize (Hact (nth i price_series [])).
    destruct Ho as [[Ha ->] | [Ha ->]]; destruct Hi' as [[Hb ->] | [Hb ->]];
      try tauto; ring. }
  rewrite <- Hsum. field.
  apply not_0_INR. lia.
Qed.

Lemma activated_with_up self path :
  activated (with_barrier_type self "up_and_out") path <->
  activated (with_barrier_type self "up_and_in") path.
Proof.
  unfold activated, with_barrier_type, up_kind, down_kind; cbn.
  split; (intros [[_ H] | [[H | H] _]]; [left; split; [tauto | exact H] | discriminate H ..]).
Qed.

Lemma activated_with_down self path :
  activated (with_barrier_type self "down_and_out") path <->
  activated (with_barrier_type self "down_and_in") path.
Proof.
  unfold activated, with_barrier_type, up_kind, down_kind; cbn.
  split; (intros [[[H | H] _] | [_ H]]; [discriminate H .. | right; split; [tauto | exact H]]).
Qed.

Lemma is_vanilla_unique self p v :
  option_type self = "call"%string \/ option_type self = "put"%string ->
  is_vanilla self p v -> v = vanilla_payoff self p.
Proof.
  intros Hot [Hcall Hput]. unfold vanilla_payoff.
  destruct Hot as [E | E]; rewrite E; cbn; [now apply Hcall | now apply Hput].
Qed.

Lemma arithmetic_mean_ext f g n :
  (forall i, (i < n)%nat -> f i = g i) -> arithmetic_mean f n = arithmetic_mean g n.
Proof. intros H. unfold arithmetic_mean. f_equal. now apply big_sum_ext. Qed.

(** The mean of the vanilla payoffs of a batch, for any family [vanilla]
    that gives each path its vanilla payoff in the words of the
    specification. *)
Lemma vanilla_mean_by_words self price_series vanilla :
  option_type self = "call"%string \/ option_type self = "put"%string ->
  (forall i, (i < length price_series)%nat ->
     is_vanilla self (last (nth i price_series []) 0) (vanilla i)) ->
  arithmetic_mean vanilla (length price_series) =
  arithmetic_mean (fun i => vanilla_payoff self (last (nth i price_series []) 0))
    (length price_series).
Proof.
  intros Hot Hv. apply arithmetic_mean_ext. intros i Hi.
  now apply is_vanilla_unique, Hv.
Qed.

(** The two sums of an out price and an in price on one batch. *)
Lemma in_out_sums self price_series :
  price_series <> [] ->
  well_shaped price_series ->
  exists up_out up_in down_out down_in,
    estimated_value (with_barrier_type self "up_and_out") price_series
    = Ok (Num up_out) /\
    estimated_value (with_barrier_type self "up_and_in") price_series
    = Ok (Num up_in) /\
    estimated_value (with_barrier_type self "down_and_out") price_series
    = Ok (Num down_out) /\
    estimated_value (with_barrier_type self "down_and_in") price_series
    = Ok (Num down_in) /\
    up_out + up_in =
    arithmetic_mean (fun i => vanilla_payoff self (last (nth i price_series []) 0))
      (length price_series)
    * exp (- (risk_free_rate self * T self)) /\
    down_out + down_in =
    arithmetic_mean (fun i => vanilla_payoff self (last (nth i price_series []) 0))
      (length price_series)
    * exp (- (risk_free_rate self * T self)).
Proof.
  intros Hnil Hne.
  destruct (out_plus_in (with_barrier_type self "up_and_out")
              (with_barrier_type self "up_and_in") price_series)
    as (up_out & up_in & Huo & Hui & Hup);
    try reflexivity; try assumption;
    try (unfold up_kind, down_kind, out_kind, in_kind; cbn; tauto);
    try apply activated_with_up.
  destruct (out_plus_in (with_barrier_type self "down_and_out")
              (with_barrier_type self "down_and_in") price_series)
    as (down_out & down_in & Hdo & Hdi & Hdown);
    try reflexivity; try assumption;
    try (unfold up_kind, down_kind, out_kind, in_kind; cbn; tauto);
    try apply activated_with_down.
  exists up_out, up_in, down_out, down_in.
  split; [exact Huo |]. split; [exact Hui |].
  split; [exact Hdo |]. split; [exact Hdi |].
  split; [exact Hup | exact Hdown].
Qed.

(** C7: for a valid contract and one batch of at least one path, all paths
    of one length of at least one, the price with barrier type up_and_out
    plus the price with up_and_in, all other fields equal, is the mean of
    the vanilla payoffs of the batch (max(final - K, 0) for a call,
    max(K - final, 0) for a put) times exp(-r T); likewise for down_and_out
    plus down_and_in. *)
Theorem in_out_complementarity :
  forall self price_series (vanilla : nat -> R),
    valid self ->
    rectangular price_series ->
    (forall i, (i < length price_series)%nat ->
       is_vanilla self (last (nth i price_series []) 0) (vanilla i)) ->
    exists up_out up_in down_out down_in,
      estimated_value (with_barrier_type self "up_and_out") price_series
      = Ok (Num up_out) /\
      estimated_value (with_barrier_type self "up_and_in") price_series
      = Ok (Num up_in) /\
      estimated_value (with_barrier_type self "down_and_out") price_series
      = Ok (Num down_out) /\
      estimated_value (with_barrier_type self "down_and_in") price_series
      = Ok (Num down_in) /\
      up_out + up_in =
      arithmetic_mean vanilla (length price_series)
      * exp (- (risk_free_rate self * T self)) /\
      down_out + down_in =
      arithmetic_mean vanilla (length price_series)
      * exp (- (risk_free_rate self * T self)).
Proof.
  intros self price_series vanilla Hv [Hnil Hne] Hvan.
  destruct (valid_inv self Hv) as (Hot & _).
  rewrite (vanilla_mean_by_words self price_series vanilla Hot Hvan).
  apply in_out_sums; assumption.
Qed.

Lemma example_batch_vanilla :
  forall i, (i < length example_batch)%nat ->
    is_vanilla example_contract (last (nth i example_batch []) 0)
      (Rmax (last (nth i example_batch []) 0 - 100) 0).
Proof.
  intros i _. split; [reflexivity | discriminate].
Qed.

Lemma in_out_complementarity_example :
  exists up_out up_in down_out down_in,
    estimated_value (with_barrier_type example_contract "up_and_out") example_batch
    = Ok (Num up_out) /\
    estimated_value (with_barrier_type example_contract "up_and_in") example_batch
    = Ok (Num up_in) /\
    estimated_value (with_barrier_type example_contract "down_and_out") example_batch
    = Ok (Num down_out) /\
    estimated_value (with_barrier_type example_contract "down_and_in") example_batch
    = Ok (Num down_in) /\
    up_out + up_in =
    arithmetic_mean (fun i => Rmax (last (nth i example_batch []) 0 - 100) 0)
      (length example_batch)
    * exp (- (risk_free_rate example_contract * T example_contract)) /\
    down_out + down_in =
    arithmetic_mean (fun i => Rmax (last (nth i example_batch []) 0 - 100) 0)
      (length example_batch)
    * exp (- (risk_free_rate example_contract * T example_contract)).
Proof.
  apply (in_out_complementarity example_contract example_batch
           (fun i => Rmax (last (nth i example_batch []) 0 - 100) 0)).
  - exact example_contract_valid.
  - exact example_batch_rectangular.
  - exact example_batch_vanilla.
Defined.

(** ** The pricing call *)

Section Run.

Context {rng : Type} (seed_state : Z -> rng) (standard_normal : rng -> R * rng).

(** The call up to the sampler: the seed is applied, the division is
    checked, nothing is drawn yet. *)
Lemma pricing_unfold self steps num_iters seed g :
  seed_ok seed ->
  monte_carlo_pricing seed_state standard_normal self steps num_iters seed g =
  if (steps =? 0)%Z
  then (Raise ZeroDivisionError, after_seed seed_state seed g)
  else match np_random_normal standard_normal num_iters steps
               (after_seed seed_state seed g) with
       | (Ok Zm, g') =>
           (estimated_value self (end_of_step_price self steps Zm), g')
       | (Raise e, g') => (Raise e, g')
       end.
Proof.
  intros Hseed. unfold monte_carlo_pricing, bind, lift, py_truediv.
  assert (Hs : (match seed with
                | Some s => np_random_seed seed_state s
                | None => ret tt
                end) g = (Ok tt, after_seed seed_state seed g)).
  { destruct seed as [s |]; [| reflexivity].
    unfold np_random_seed, after_seed, seed_ok in *.
    replace ((0 <=? s) && (s <? 2 ^ 32))%Z with true; [reflexivity |].
    symmetry. apply andb_true_iff. split; [apply Z.leb_le | apply Z.ltb_lt]; lia. }
  rewrite Hs. destruct (steps =? 0)%Z; [reflexivity |].
  destruct (np_random_normal standard_normal num_iters steps
              (after_seed seed_state seed g)) as [[Zm | e] g']; reflexivity.
Qed.

(** A refused seed stops the call at once. *)
Lemma pricing_bad_seed self steps num_iters s g :
  ~ (0 <= s < 2 ^ 32)%Z ->
  monte_carlo_pricing seed_state standard_normal self steps num_iters (Some s) g
  = (Raise ValueError, g).
Proof.
  intros Hs. unfold monte_carlo_pricing, bind, np_random_seed.
  replace ((0 <=? s) && (s <? 2 ^ 32))%Z with false; [reflexivity |].
  symmetry. apply andb_false_iff.
  destruct (Z.leb_spec 0 s); [right; apply Z.ltb_ge; lia | now left].
Qed.

Lemma np_random_normal_negative n m g :
  (n < 0 \/ m < 0)%Z ->
  np_random_normal standard_normal n m g = (Raise ValueError, g).
Proof.
  intros H. unfold np_random_normal.
  replace ((n <? 0) || (m <? 0))%Z with true; [reflexivity |].
  symmetry. apply orb_true_iff.
  destruct H; [left | right]; apply Z.ltb_lt; lia.
Qed.

Lemma np_random_normal_no_rows m g :
  (0 <= m)%Z -> np_random_normal standard_normal 0 m g = (Ok [], g).
Proof.
  intros H. unfold np_random_normal.
  replace (m <? 0)%Z with false by (symmetry; apply Z.ltb_ge; lia).
  reflexivity.
Qed.

(** On a proper grid the call samples and prices the generated batch. *)
Lemma pricing_run self steps num_iters seed g :
  seed_ok seed -> (1 <= steps)%Z -> (0 <= num_iters)%Z ->
  exists Zm g',
    np_random_normal standard_normal num_iters steps
      (after_seed seed_state seed g) = (Ok Zm, g') /\
    length Zm = Z.to_nat num_iters /\
    Forall (fun Zrow => length Zrow = Z.to_nat steps) Zm /\
    monte_carlo_pricing seed_state standard_normal self steps num_iters seed g =
    (estimated_value self (end_of_step_price self steps Zm), g').
Proof.
  intros Hseed Hs Hn.
  destruct (np_random_normal_shape standard_normal num_iters steps
              (after_seed seed_state seed g))
    as (Zm & g' & Hdraw & Hlen & Hshape); [lia | lia |].
  exists Zm, g'. repeat split; try assumption.
  rewrite pricing_unfold by exact Hseed.
  replace (steps =? 0)%Z with false by (symmetry; apply Z.eqb_neq; lia).
  now rewrite Hdraw.
Qed.

End Run.

(** ** Sign of the estimate *)

Lemma contract_payoff_nonneg self price_series :
  valid self ->
  well_shaped price_series ->
  exists payoff,
    contract_payoff self price_series = Ok payoff /\
    length payoff = length price_series /\
    forall i, (i < length price_series)%nat -> 0 <= nth i payoff 0.
Proof.
  intros Hv Hne. destruct (valid_inv self Hv) as (_ & Hkind & Hoi & _).
  destruct (contract_payoff_nth self price_series Hkind Hne) as (payoff & Hp & Hlen & Hnth).
  exists payoff. repeat split; try assumption. intros i Hi.
  destruct (Hnth i Hi) as [Hout Hin]. cbn zeta in Hout, Hin.
  pose proof (vanilla_payoff_nonneg self (last (nth i price_series []) 0)) as Hvan.
  destruct Hoi as [Hk | Hk];
    [destruct (Hout Hk) as [[_ ->] | [_ ->]] | destruct (Hin Hk) as [[_ ->] | [_ ->]]];
    lra.
Qed.

(** C8: for a valid contract with a non-negative maturity, a grid with at
    least one step and one path, an accepted seed (or none) and any
    generator, the pricing call returns a number, and that number is at
    least 0. *)
Theorem price_estimate_nonnegative :
  forall (rng : Type) (seed_state : Z -> rng) (standard_normal : rng -> R * rng)
         (self : BarrierOption.t) (steps num_iters : Z) (seed : option Z) (g : rng),
    valid self -> 0 <= T self ->
    (1 <= steps)%Z -> (1 <= num_iters)%Z -> seed_ok seed ->
    exists estimate g',
      monte_carlo_pricing seed_state standard_normal self steps num_iters seed g
      = (Ok (Num estimate), g') /\
      0 <= estimate.
Proof.
  intros rng seed_state standard_normal self steps num_iters seed g
    Hv _ Hs Hn Hseed.
  destruct (pricing_run seed_state standard_normal self steps num_iters seed g)
    as (Zm & g' & _ & Hlen & Hshape & Hrun); [assumption | lia | lia |].
  destruct (contract_payoff_nonneg self (end_of_step_price self steps Zm) Hv
              (end_of_step_price_well_shaped self steps Zm Hshape))
    as (payoff & Hp & Hpl & Hpos).
  rewrite end_of_step_price_length in Hpl, Hpos.
  assert (Hone : (1 <= length payoff)%nat) by lia.
  rewrite (estimated_value_mean _ _ _ Hp Hone) in Hrun.
  do 2 eexists. split; [exact Hrun |].
  unfold arithmetic_mean. apply Rmult_le_pos.
  - apply big_sum_nonneg. intros i Hi. apply Rmult_le_pos.
    + apply Hpos. lia.
    + left. apply exp_pos.
  - left. apply Rinv_0_lt_compat. apply lt_0_INR. lia.
Qed.

Lemma price_estimate_nonnegative_example :
  exists estimate g',
    monte_carlo_pricing example_seed_state example_standard_normal
      example_contract 3 2 (Some 42%Z) 7%nat
    = (Ok (Num estimate), g') /\
    0 <= estimate.
Proof.
  apply (price_estimate_nonnegative nat example_seed_state example_standard_normal
           example_contract 3 2 (Some 42%Z) 7%nat).
  - exact example_contract_valid.
  - exact example_contract_maturity.
  - lia.
  - lia.
  - cbn. lia.
Defined.

(** ** Reproducibility *)

(** C10: with an explicit seed, the value the pricing call returns (the
    estimate, or the error) is the same whatever the state of the global
    generator was before the call; when the seed is accepted the generator
    is also left in the same state.  Two calls with the same contract, grid
    and seed therefore agree. *)
Theorem seeded_pricing_is_reproducible :
  forall (rng : Type) (seed_state : Z -> rng) (standard_normal : rng -> R * rng)
         (self : BarrierOption.t) (steps num_iters s : Z) (g1 g2 : rng),
    fst (monte_carlo_pricing seed_state standard_normal self steps num_iters
           (Some s) g1)
    = fst (monte_carlo_pricing seed_state standard_normal self steps num_iters
             (Some s) g2) /\
    (seed_ok (Some s) ->
     monte_carlo_pricing seed_state standard_normal self steps num_iters (Some s) g1
     = monte_carlo_pricing seed_state standard_normal self steps num_iters (Some s) g2).
Proof.
  intros rng seed_state standard_normal self steps num_iters s g1 g2.
  assert (Hok : seed_ok (Some s) ->
                monte_carlo_pricing seed_state standard_normal self steps num_iters
                  (Some s) g1
                = monte_carlo_pricing seed_state standard_normal self steps num_iters
                    (Some s) g2).
  { intros Hseed. rewrite !pricing_unfold by exact Hseed.
    unfold after_seed, seed_ok in *.
    replace ((0 <=? s) && (s <? 2 ^ 32))%Z with true; [reflexivity |].
    symmetry. apply andb_true_iff. split; [apply Z.leb_le | apply Z.ltb_lt]; lia. }
  split; [| exact Hok].
  destruct (Z_le_dec 0 s) as [H0 | H0]; [destruct (Z_lt_dec s (2 ^ 32)) as [H1 | H1] |].
  - now rewrite Hok by (cbn; lia).
  - now rewrite !pricing_bad_seed by lia.
  - now rewrite !pricing_bad_seed by lia.
Qed.

(** ** Degenerate grids *)

Lemma estimated_value_no_paths self : estimated_value self [] = Ok NaN.
Proof.
  unfold estimated_value, contract_payoff, barrier_reached.
  destruct (is_up self); cbn;
    destruct (barrier_type self =? "up_and_out")%string;
    destruct (barrier_type self =? "down_and_out")%string; reflexivity.
Qed.

(** C6, as the code has it: there is no grid check of its own.  With an
    accepted seed (or none), [steps = 0] stops the call at the division
    [T / steps]; a negative [steps] or [num_iters] stops it when numpy
    refuses the shape of the sample; in both cases nothing has been drawn.
    With at least one step and [num_iters = 0] the call does not fail: it
    returns nan, the mean of an empty payoff vector, again without a draw. *)
Theorem degenerate_grid_outcomes :
  forall (rng : Type) (seed_state : Z -> rng) (standard_normal : rng -> R * rng)
         (self : BarrierOption.t) (steps num_iters : Z) (seed : option Z) (g : rng),
    seed_ok seed ->
    (steps = 0%Z ->
     monte_carlo_pricing seed_state standard_normal self steps num_iters seed g
     = (Raise ZeroDivisionError, after_seed seed_state seed g)) /\
    (steps <> 0%Z -> (steps < 0)%Z \/ (num_iters < 0)%Z ->
     monte_carlo_pricing seed_state standard_normal self steps num_iters seed g
     = (Raise ValueError, after_seed seed_state seed g)) /\
    ((1 <= steps)%Z -> num_iters = 0%Z ->
     monte_carlo_pricing seed_state standard_normal self steps num_iters seed g
     = (Ok NaN, after_seed seed_state seed g)).
Proof.
  intros rng seed_state standard_normal self steps num_iters seed g Hseed.
  rewrite pricing_unfold by exact Hseed. repeat split.
  - intros ->. reflexivity.
  - intros Hs Hneg.
    replace (steps =? 0)%Z with false by (symmetry; apply Z.eqb_neq; lia).
    rewrite np_random_normal_negative by tauto. reflexivity.
  - intros Hs ->.
    replace (steps =? 0)%Z with false by (symmetry; apply Z.eqb_neq; lia).
    rewrite np_random_normal_no_rows by lia.
    now rewrite estimated_value_no_paths.
Qed.

Lemma degenerate_grid_outcomes_example :
  monte_carlo_pricing example_seed_state example_standard_normal
    example_contract 0 5 None 7%nat
  = (Raise ZeroDivisionError, 7%nat) /\
  monte_carlo_pricing example_seed_state example_standard_normal
    example_contract 3 (-1) (Some 42%Z) 7%nat
  = (Raise ValueError, 42%nat).
Proof.
  split.
  - apply (degenerate_grid_outcomes nat example_seed_state example_standard_normal
             example_contract 0 5 None 7%nat); [exact I | reflexivity].
  - apply (degenerate_grid_outcomes nat example_seed_state example_standard_normal
             example_contract 3 (-1) (Some 42%Z) 7%nat); [cbn; lia | lia | lia].
Defined.

(** C6 as stated fails: one step and zero paths is not refused; the call
    returns nan. *)
Lemma zero_paths_is_not_refused :
  monte_carlo_pricing example_seed_state example_standard_normal
    example_contract 1 0 None 0%nat
  = (Ok NaN, 0%nat).
Proof.
  rewrite pricing_unfold by exact I.
  cbn [Z.eqb]. rewrite np_random_normal_no_rows by lia.
  now rewrite estimated_value_no_paths.
Qed.

(** ** Zero volatility *)

Lemma big_prod_const_exp x k : big_prod (fun _ => exp x) k = exp (INR k * x).
Proof.
  induction k as [| k IH]; cbn [big_prod].
  - cbn [INR]. now rewrite Rmult_0_l, exp_0.
  - rewrite IH, <- exp_plus, S_INR. f_equal. ring.
Qed.

Lemma forward_path_length self steps :
  length (forward_path self steps) = S (Z.to_nat steps).
Proof. unfold forward_path. now rewrite length_map, length_seq. Qed.

Lemma forward_path_nth self steps k :
  (k <= Z.to_nat steps)%nat ->
  nth k (forward_path self steps) 0 =
  S0 self * exp (risk_free_rate self * T self * INR k / IZR steps).
Proof.
  intros Hk. unfold forward_path.
  rewrite (nth_map_in _ _ 0%nat) by (rewrite length_seq; lia).
  rewrite seq_nth by lia. reflexivity.
Qed.

(** Without volatility every generated path is the forward path. *)
Lemma zero_volatility_row self steps Zm i :
  volatility self = 0 -> (1 <= steps)%Z ->
  (i < length Zm)%nat -> length (nth i Zm []) = Z.to_nat steps ->
  nth i (end_of_step_price self steps Zm) [] = forward_path self steps.
Proof.
  intros Hvol Hs Hi Hrow.
  assert (Hsteps : IZR steps <> 0) by (apply not_0_IZR; lia).
  apply (nth_ext _ _ 0 0).
  - rewrite forward_path_length, end_of_step_price_row by exact Hi. cbn [length].
    now rewrite length_map, np_cumprod_length, length_map, Hrow.
  - intros k Hk.
    assert (Hk' : (k <= Z.to_nat steps)%nat).
    { rewrite end_of_step_price_row in Hk by exact Hi. cbn [length] in Hk.
      rewrite length_map, np_cumprod_length, length_map, Hrow in Hk. lia. }
    rewrite forward_path_nth by exact Hk'.
    destruct k as [| k].
    + rewrite end_of_step_price_row by exact Hi. cbn [nth INR].
      replace (risk_free_rate self * T self * 0 / IZR steps) with 0
        by (field; exact Hsteps).
      rewrite exp_0. reflexivity.
    + rewrite end_of_step_price_nth by (try exact Hi; lia).
      f_equal. rewrite Hvol.
      rewrite (big_prod_ext _ (fun _ => exp (risk_free_rate self * (T self / IZR steps)))).
      * rewrite big_prod_const_exp. f_equal. field. exact Hsteps.
      * intros j _. f_equal. ring.
Qed.

(** C9: with volatility 0 and a non-negative maturity, on a grid with at
    least one step and one path, every generated path is the forward path,
    whose element k is S0 * exp(r * T * k / steps), whatever the generator
    draws; and the estimate is the payoff of that single path (its vanilla
    payoff or 0, by barrier type and activation), discounted by
    exp(-r T). *)
Theorem zero_volatility_is_deterministic :
  forall (rng : Type) (seed_state : Z -> rng) (standard_normal : rng -> R * rng)
         (self : BarrierOption.t) (steps num_iters : Z) (seed : option Z) (g : rng),
    valid self -> volatility self = 0 -> 0 <= T self ->
    (1 <= steps)%Z -> (1 <= num_iters)%Z -> seed_ok seed ->
    exists Zm g' payoff vanilla,
      np_random_normal standard_normal num_iters steps
        (after_seed seed_state seed g) = (Ok Zm, g') /\
      length (end_of_step_price self steps Zm) = Z.to_nat num_iters /\
      (forall i, (i < Z.to_nat num_iters)%nat ->
         nth i (end_of_step_price self steps Zm) [] = forward_path self steps) /\
      (forall k, (k <= Z.to_nat steps)%nat ->
         nth k (forward_path self steps) 0 =
         S0 self * exp (risk_free_rate self * T self * INR k / IZR steps)) /\
      is_vanilla self (last (forward_path self steps) 0) vanilla /\
      (out_kind (barrier_type self) ->
       (~ activated self (forward_path self steps) -> payoff = vanilla) /\
       (activated self (forward_path self steps) -> payoff = 0)) /\
      (in_kind (barrier_type self) ->
       (activated self (forward_path self steps) -> payoff = vanilla) /\
       (~ activated self (forward_path self steps) -> payoff = 0)) /\
      monte_carlo_pricing seed_state standard_normal self steps num_iters seed g
      = (Ok (Num (payoff * exp (- (risk_free_rate self * T self)))), g').
Proof.
  intros rng seed_state standard_normal self steps num_iters seed g
    Hv Hvol _ Hs Hn Hseed.
  destruct (pricing_run seed_state standard_normal self steps num_iters seed g)
    as (Zm & g' & Hdraw & Hlen & Hshape & Hrun); [assumption | lia | lia |].
  assert (Hrows : forall i, (i < Z.to_nat num_iters)%nat ->
            nth i (end_of_step_price self steps Zm) [] = forward_path self steps).
  { intros i Hi. apply zero_volatility_row; try assumption; try lia.
    rewrite Forall_forall in Hshape. apply Hshape, nth_In. lia. }
  destruct (valid_inv self Hv) as (_ & Hkind & Hoi & _).
  destruct (contract_payoff_nth self _ Hkind
              (end_of_step_price_well_shaped self steps Zm Hshape))
    as (payoff & Hp & Hpl & Hnth).
  rewrite end_of_step_price_length in Hpl, Hnth.
  set (fw := forward_path self steps) in *.
  set (van := vanilla_payoff self (last fw 0)).
  assert (Hent : forall i, (i < Z.to_nat num_iters)%nat ->
            (out_kind (barrier_type self) ->
             (activated self fw /\ nth i payoff 0 = 0) \/
             (~ activated self fw /\ nth i payoff 0 = van)) /\
            (in_kind (barrier_type self) ->
             (activated self fw /\ nth i payoff 0 = van) \/
             (~ activated self fw /\ nth i payoff 0 = 0))).
  { intros i Hi. assert (Hi' : (i < length Zm)%nat) by lia.
    specialize (Hnth i Hi'). cbn zeta in Hnth.
    rewrite (Hrows i Hi) in Hnth. exact Hnth. }
  assert (H0 : (0 < Z.to_nat num_iters)%nat) by lia.
  assert (Hsame : forall i, (i < Z.to_nat num_iters)%nat ->
            nth i payoff 0 = nth 0 payoff 0).
  { intros i Hi. destruct (Hent i Hi) as [Ho Hi']. destruct (Hent 0%nat H0) as [Ho0 Hi0].
    destruct Hoi as [Hk | Hk].
    - destruct (Ho Hk) as [[Ha ->] | [Ha ->]];
        destruct (Ho0 Hk) as [[Hb ->] | [Hb ->]]; tauto.
    - destruct (Hi' Hk) as [[Ha ->] | [Ha ->]];
        destruct (Hi0 Hk) as [[Hb ->] | [Hb ->]]; tauto. }
  exists Zm, g', (nth 0 payoff 0), van.
  split; [exact Hdraw |].
  split; [now rewrite end_of_step_price_length |].
  split; [exact Hrows |]. split; [apply forward_path_nth |].
  split; [apply vanilla_payoff_is_vanilla |].
  destruct (Hent 0%nat H0) as [Ho0 Hi0].
  split; [| split].
  - intros Hk. destruct (Ho0 Hk) as [[Ha ->] | [Ha ->]]; tauto.
  - intros Hk. destruct (Hi0 Hk) as [[Ha ->] | [Ha ->]]; tauto.
  - rewrite Hrun. rewrite (estimated_value_mean _ _ _ Hp) by lia.
    do 3 f_equal. unfold arithmetic_mean.
    rewrite (big_sum_ext _
               (fun _ => nth 0 payoff 0 * exp (- (risk_free_rate self * T self)))).
    + rewrite big_sum_const. field. apply not_0_INR. lia.
    + intros i Hi. f_equal. apply Hsame. lia.
Qed.

Lemma example_calm_contract_valid : valid example_calm_contract.
Proof.
  unfold valid, example_calm_contract; cbn.
  destruct (init_cases "call" "up_and_out" 100 100 120 1 0 0.05)
    as [[Hbad _] | [_ H]]; [exfalso | exact H].
  unfold rejected, bad_option_type, bad_barrier_type in Hbad.
  destruct Hbad as [[H _] | [[H _] | [H | H]]]; try congruence; lra.
Qed.

Lemma zero_volatility_is_deterministic_example :
  exists Zm g' payoff vanilla,
    np_random_normal example_standard_normal 2 3
      (after_seed example_seed_state (Some 42%Z) 7%nat) = (Ok Zm, g') /\
    length (end_of_step_price example_calm_contract 3 Zm) = Z.to_nat 2 /\
    (forall i, (i < Z.to_nat 2)%nat ->
       nth i (end_of_step_price example_calm_contract 3 Zm) []
       = forward_path example_calm_contract 3) /\
    (forall k, (k <= Z.to_nat 3)%nat ->
       nth k (forward_path example_calm_contract 3) 0 =
       S0 example_calm_contract
       * exp (risk_free_rate example_calm_contract * T example_calm_contract
              * INR k / IZR 3)) /\
    is_vanilla example_calm_contract
      (last (forward_path example_calm_contract 3) 0) vanilla /\
    (out_kind (barrier_type example_calm_contract) ->
     (~ activated example_calm_contract (forward_path example_calm_contract 3) ->
      payoff = vanilla) /\
     (activated example_calm_contract (forward_path example_calm_contract 3) ->
      payoff = 0)) /\
    (in_kind (barrier_type example_calm_contract) ->
     (activated example_calm_contract (forward_path example_calm_contract 3) ->
      payoff = vanilla) /\
     (~ activated example_calm_contract (forward_path example_calm_contract 3) ->
      payoff = 0)) /\
    monte_carlo_pricing example_seed_state example_standard_normal
      example_calm_contract 3 2 (Some 42%Z) 7%nat
    = (Ok (Num (payoff * exp (- (risk_free_rate example_calm_contract
                                 * T example_calm_contract)))), g').
Proof.
  apply (zero_volatility_is_deterministic nat example_seed_state
           example_standard_normal example_calm_contract 3 2 (Some 42%Z) 7%nat).
  - exact example_calm_contract_valid.
  - reflexivity.
  - unfold example_calm_contract; cbn. lra.
  - lia.
  - lia.
  - cbn. lia.
Defined.

Lemma seeded_pricing_is_reproducible_example :
  monte_carlo_pricing example_seed_state example_standard_normal
    example_contract 3 2 (Some 42%Z) 7%nat
  = monte_carlo_pricing example_seed_state example_standard_normal
      example_contract 3 2 (Some 42%Z) 1000%nat.
Proof.
  destruct (seeded_pricing_is_reproducible nat example_seed_state
              example_standard_normal example_contract 3 2 42 7%nat 1000%nat)
    as [_ H].
  apply H. cbn. lia.
Defined.

(** * Further properties of the engine *)

(** ** Vanilla payoff and discounting *)

(** X1: put-call parity of the payoff at maturity: for one strike, the call
    payoff minus the put payoff is the expiration price minus the strike. *)
Theorem vanilla_put_call_parity :
  forall self expiration_price,
    vanilla_payoff (with_option_type self "call") expiration_price
    - vanilla_payoff (with_option_type self "put") expiration_price
    = expiration_price - K self.
Proof.
  intros self p. unfold vanilla_payoff, with_option_type; cbn.
  unfold Rmax.
  destruct (Rle_dec (p - K self) 0); destruct (Rle_dec (K self - p) 0); lra.
Qed.

Lemma np_sum_scale l c : np_sum (map (fun v => v * c) l) = np_sum l * c.
Proof.
  rewrite !np_sum_big_sum, length_map, <- big_sum_scale.
  apply big_sum_ext. intros i Hi. now rewrite (nth_map_in _ _ 0).
Qed.

(** X2: discounting every payoff and then averaging is the same as averaging
    and discounting once; on an empty payoff vector both are nan. *)
Theorem discount_commutes_with_mean :
  forall self payoff,
    np_mean (present_value self payoff) =
    match np_mean payoff with
    | Num m => Num (m * exp (- (risk_free_rate self * T self)))
    | NaN => NaN
    end.
Proof.
  intros self payoff. destruct payoff as [| v vs]; [reflexivity |].
  unfold present_value. cbn [map np_mean]. f_equal.
  change ((v * exp (- risk_free_rate self * T self))
          :: map (fun v0 => v0 * exp (- risk_free_rate self * T self)) vs)
    with (map (fun v0 => v0 * exp (- risk_free_rate self * T self)) (v :: vs)).
  rewrite np_sum_scale, discount_form, length_map.
  change (length (v :: vs)) with (S (length vs)).
  field. apply not_0_INR. lia.
Qed.

Lemma discount_le_1 self :
  0 <= risk_free_rate self * T self ->
  0 < exp (- risk_free_rate self * T self) <= 1.
Proof.
  intros H. split; [apply exp_pos |].
  rewrite <- exp_0. destruct (Req_dec (risk_free_rate self * T self) 0) as [E | E].
  - right. f_equal. lra.
  - left. apply exp_increasing. lra.
Qed.

(** X3: when [r * T >= 0], the present value of a non-negative cash flow is
    non-negative and never exceeds the cash flow; the vector keeps its
    length. *)
Theorem present_value_bounded :
  forall self value,
    0 <= risk_free_rate self * T self ->
    length (present_value self value) = length value /\
    forall i, (i < length value)%nat -> 0 <= nth i value 0 ->
      0 <= nth i (present_value self value) 0 <= nth i value 0.
Proof.
  intros self value Hr. unfold present_value. split; [apply length_map |].
  intros i Hi Hpos. rewrite (nth_map_in _ _ 0) by exact Hi.
  destruct (discount_le_1 self Hr) as [H0 H1]. nra.
Qed.

Lemma present_value_bounded_example :
  length (present_value example_contract [0; 15]) = length [0; 15] /\
  forall i, (i < length [0; 15])%nat -> 0 <= nth i [0; 15] 0 ->
    0 <= nth i (present_value example_contract [0; 15]) 0 <= nth i [0; 15] 0.
Proof.
  apply (present_value_bounded example_contract [0; 15]).
  unfold example_contract; cbn. lra.
Defined.

(** ** Barrier price against vanilla price *)

Lemma big_sum_le f g n :
  (forall i, (i < n)%nat -> f i <= g i) -> big_sum f n <= big_sum g n.
Proof.
  induction n as [| n IH]; intros H; cbn [big_sum]; [lra |].
  assert (big_sum f n <= big_sum g n) by (apply IH; intros; apply H; lia).
  assert (f n <= g n) by (apply H; lia). lra.
Qed.

Lemma arithmetic_mean_le f g n :
  (1 <= n)%nat -> (forall i, (i < n)%nat -> f i <= g i) ->
  arithmetic_mean f n <= arithmetic_mean g n.
Proof.
  intros Hn H. unfold arithmetic_mean.
  apply Rmult_le_compat_r; [| now apply big_sum_le].
  left. apply Rinv_0_lt_compat, lt_0_INR. lia.
Qed.

(** Two contracts with the same discounting, compared payoff by payoff. *)
Lemma estimated_value_le self self' price_series payoff payoff' :
  contract_payoff self price_series = Ok payoff ->
  contract_payoff self' price_series = Ok payoff' ->
  length payoff = length price_series -> length payoff' = length price_series ->
  risk_free_rate self = risk_free_rate self' -> T self = T self' ->
  price_series <> [] ->
  (forall i, (i < length price_series)%nat -> nth i payoff 0 <= nth i payoff' 0) ->
  exists e e',
    estimated_value self price_series = Ok (Num e) /\
    estimated_value self' price_series = Ok (Num e') /\ e <= e'.
Proof.
  intros Hp Hp' Hl Hl' Hr HT Hnil Hle.
  assert (Hpos : (1 <= length price_series)%nat)
    by (destruct price_series; [congruence | cbn; lia]).
  do 2 eexists.
  split; [apply (estimated_value_mean _ _ _ Hp); lia |].
  split; [apply (estimated_value_mean _ _ _ Hp'); lia |].
  rewrite Hl, Hl', <- Hr, <- HT. apply arithmetic_mean_le; [exact Hpos |].
  intros i Hi. apply Rmult_le_compat_r; [left; apply exp_pos | now apply Hle].
Qed.

(** X4: for a valid contract and a batch of at least one path, all paths of
    one length of at least one, each payoff entry lies between 0 and the
    vanilla payoff of its path (max(final - K, 0) for a call,
    max(K - final, 0) for a put), and the estimate lies between 0 and the
    mean of those vanilla payoffs times exp(-r T): a barrier contract is
    never worth more than the plain vanilla option on the same batch. *)
Theorem barrier_price_at_most_vanilla :
  forall self price_series (vanilla : nat -> R),
    valid self -> rectangular price_series ->
    (forall i, (i < length price_series)%nat ->
       is_vanilla self (last (nth i price_series []) 0) (vanilla i)) ->
    exists payoff estimate,
      contract_payoff self price_series = Ok payoff /\
      (forall i, (i < length price_series)%nat ->
         0 <= nth i payoff 0 <= vanilla i) /\
      estimated_value self price_series = Ok (Num estimate) /\
      0 <= estimate
      <= arithmetic_mean vanilla (length price_series)
         * exp (- (risk_free_rate self * T self)).
Proof.
  intros self price_series vanilla Hv [Hnil Hne] Hvan.
  destruct (valid_inv self Hv) as (Hot & Hkind & Hoi & _).
  destruct (contract_payoff_nth self price_series Hkind Hne)
    as (payoff & Hp & Hlen & Hnth).
  assert (Hpos : (1 <= length price_series)%nat)
    by (destruct price_series; [congruence | cbn; lia]).
  assert (Hent : forall i, (i < length price_series)%nat ->
            0 <= nth i payoff 0 <= vanilla i).
  { intros i Hi. rewrite (is_vanilla_unique self _ _ Hot (Hvan i Hi)).
    destruct (Hnth i Hi) as [Hout Hin]. cbn zeta in Hout, Hin.
    pose proof (vanilla_payoff_nonneg self (last (nth i price_series []) 0)).
    destruct Hoi as [Hk | Hk];
      [destruct (Hout Hk) as [[_ ->] | [_ ->]]
      | destruct (Hin Hk) as [[_ ->] | [_ ->]]]; lra. }
  exists payoff. eexists.
  split; [exact Hp |]. split; [exact Hent |].
  split; [apply (estimated_value_mean _ _ _ Hp); lia |].
  assert (He : 0 < exp (- (risk_free_rate self * T self))) by apply exp_pos.
  assert (Hinv : 0 < / INR (length price_series))
    by (apply Rinv_0_lt_compat, lt_0_INR; lia).
  rewrite Hlen. unfold arithmetic_mean. split.
  - apply Rmult_le_pos; [| lra].
    apply big_sum_nonneg. intros i Hi.
    apply Rmult_le_pos; [apply Hent; exact Hi | lra].
  - apply Rle_trans with
      (big_sum (fun i => vanilla i * exp (- (risk_free_rate self * T self)))
         (length price_series) / INR (length price_series)).
    + apply Rmult_le_compat_r; [lra |].
      apply big_sum_le. intros i Hi.
      apply Rmult_le_compat_r; [lra |]. apply Hent. exact Hi.
    + right. rewrite big_sum_scale. field. apply not_0_INR. lia.
Qed.

Lemma barrier_price_at_most_vanilla_example :
  exists payoff estimate,
    contract_payoff example_contract example_batch = Ok payoff /\
    (forall i, (i < length example_batch)%nat ->
       0 <= nth i payoff 0 <= Rmax (last (nth i example_batch []) 0 - 100) 0) /\
    estimated_value example_contract example_batch = Ok (Num estimate) /\
    0 <= estimate
    <= arithmetic_mean (fun i => Rmax (last (nth i example_batch []) 0 - 100) 0)
         (length example_batch)
       * exp (- (risk_free_rate example_contract * T example_contract)).
Proof.
  apply (barrier_price_at_most_vanilla example_contract example_batch
           (fun i => Rmax (last (nth i example_batch []) 0 - 100) 0)).
  - exact example_contract_valid.
  - exact example_batch_rectangular.
  - exact example_batch_vanilla.
Defined.

(** ** Invariants of the generated paths *)

Lemma cumprod_from_pos row :
  forall acc, 0 < acc -> Forall (fun x => 0 < x) row ->
    Forall (fun x => 0 < x) (cumprod_from acc row).
Proof.
  induction row as [| x xs IH]; intros acc Hacc Hrow; cbn [cumprod_from];
    [constructor |].
  inversion Hrow as [| ? ? Hx Hxs]; subst.
  assert (0 < acc * x) by now apply Rmult_lt_0_compat.
  constructor; [assumption | now apply IH].
Qed.

Lemma np_cumprod_pos row :
  Forall (fun x => 0 < x) row -> Forall (fun x => 0 < x) (np_cumprod row).
Proof.
  destruct row as [| x xs]; intros Hrow; cbn [np_cumprod]; [constructor |].
  inversion Hrow; subst. constructor; [assumption | now apply cumprod_from_pos].
Qed.

Lemma end_of_step_price_pos self steps Zm :
  0 < S0 self ->
  Forall (Forall (fun x => 0 < x)) (end_of_step_price self steps Zm).
Proof.
  intros HS0. unfold end_of_step_price.
  apply Forall_map, Forall_forall. intros Zrow _.
  constructor; [lra |].
  apply Forall_map.
  eapply Forall_impl; [| apply np_cumprod_pos].
  - intros x Hx. cbn beta. now apply Rmult_lt_0_compat.
  - apply Forall_map, Forall_forall. intros z _. apply exp_pos.
Qed.

(** X5: with a positive initial price, a non-negative maturity and at least
    one step, every element of every generated path is positive, whatever
    is drawn. *)
Theorem generated_prices_positive :
  forall self steps Zm,
    0 < S0 self -> 0 <= T self -> (1 <= steps)%Z ->
    Forall (Forall (fun x => 0 < x)) (end_of_step_price self steps Zm).
Proof. intros self steps Zm HS0 _ _. now apply end_of_step_price_pos. Qed.

Lemma generated_prices_positive_example :
  Forall (Forall (fun x => 0 < x))
    (end_of_step_price example_contract 3 example_draws).
Proof.
  apply (generated_prices_positive example_contract 3 example_draws).
  - unfold example_contract; cbn. lra.
  - exact example_contract_maturity.
  - lia.
Defined.

(** X6: for a non-negative maturity and at least one step, a generated path
    is a multiplicative walk: each element is the previous one times the
    step factor of the draw of that step,
    exp((r - 0.5 vol^2) dt + vol sqrt(dt) z). *)
Theorem generated_path_recurrence :
  forall self steps Zm i k,
    0 <= T self -> (1 <= steps)%Z ->
    (i < length Zm)%nat -> (k < length (nth i Zm []))%nat ->
    nth (S k) (nth i (end_of_step_price self steps Zm) []) 0 =
    nth k (nth i (end_of_step_price self steps Zm) []) 0
    * step_factor self steps (nth k (nth i Zm []) 0).
Proof.
  intros self steps Zm i k _ _ Hi Hk.
  rewrite (end_of_step_price_nth self steps Zm i (S k)) by (try exact Hi; lia).
  cbn [big_prod]. replace (S k - 1)%nat with k by lia.
  fold (step_factor self steps (nth k (nth i Zm []) 0)).
  destruct k as [| k].
  - rewrite end_of_step_price_row by exact Hi. cbn [big_prod nth]. ring.
  - rewrite (end_of_step_price_nth self steps Zm i (S k)) by (try exact Hi; lia).
    ring.
Qed.

Lemma generated_path_recurrence_example :
  nth 2 (nth 1 (end_of_step_price example_contract 3 example_draws) []) 0 =
  nth 1 (nth 1 (end_of_step_price example_contract 3 example_draws) []) 0
  * step_factor example_contract 3 (nth 1 (nth 1 example_draws []) 0).
Proof.
  apply (generated_path_recurrence example_contract 3 example_draws 1 1).
  - exact example_contract_maturity.
  - lia.
  - cbn. lia.
  - cbn. lia.
Defined.

(** ** Barriers breached at time zero *)

Lemma generated_path_activated self steps Zm i :
  (up_kind (barrier_type self) /\ S0 self >= B self) \/
  (down_kind (barrier_type self) /\ S0 self <= B self) ->
  (i < length Zm)%nat ->
  activated self (nth i (end_of_step_price self steps Zm) []).
Proof.
  intros Hbreach Hi. rewrite end_of_step_price_row by exact Hi.
  set (rest := map (Rmult (S0 self)) _).
  destruct Hbreach as [[Hk HB] | [Hk HB]]; [left | right]; (split; [exact Hk |]).
  - destruct (np_max_spec (S0 self * 1 :: rest)) as (m & _ & Hm); [discriminate |].
    exists m. split; [exact Hm |]. destruct Hm as [_ Hub].
    specialize (Hub (S0 self * 1) (or_introl eq_refl)). lra.
  - destruct (np_min_spec (S0 self * 1 :: rest)) as (m & _ & Hm); [discriminate |].
    exists m. split; [exact Hm |]. destruct Hm as [_ Hlb].
    specialize (Hlb (S0 self * 1) (or_introl eq_refl)). lra.
Qed.

Lemma estimated_value_all_zero self price_series payoff :
  contract_payoff self price_series = Ok payoff ->
  (1 <= length payoff)%nat ->
  (forall i, (i < length payoff)%nat -> nth i payoff 0 = 0) ->
  estimated_value self price_series = Ok (Num 0).
Proof.
  intros Hp Hlen Hz. rewrite (estimated_value_mean _ _ _ Hp Hlen).
  do 2 f_equal. unfold arithmetic_mean.
  rewrite (big_sum_ext _ (fun _ => 0)) by (intros i Hi; rewrite Hz by exact Hi; ring).
  rewrite big_sum_const. field. apply not_0_INR. lia.
Qed.

Lemma arithmetic_mean_scale f c n :
  arithmetic_mean (fun i => f i * c) n = arithmetic_mean f n * c.
Proof. unfold arithmetic_mean. rewrite big_sum_scale. unfold Rdiv. ring. Qed.

Lemma estimated_value_all_vanilla self price_series payoff :
  contract_payoff self price_series = Ok payoff ->
  length payoff = length price_series ->
  (1 <= length price_series)%nat ->
  (forall i, (i < length price_series)%nat ->
     nth i payoff 0 = vanilla_payoff self (last (nth i price_series []) 0)) ->
  estimated_value self price_series =
  Ok (Num (arithmetic_mean
             (fun i => vanilla_payoff self (last (nth i price_series []) 0))
             (length price_series)
           * exp (- (risk_free_rate self * T self)))).
Proof.
  intros Hp Hlen Hpos Hv.
  rewrite (estimated_value_mean _ _ _ Hp) by lia.
  do 2 f_equal. rewrite Hlen, <- arithmetic_mean_scale.
  apply arithmetic_mean_ext. intros i Hi. now rewrite Hv.
Qed.

(** X7: for a non-negative maturity, an out barrier already breached by the
    initial price (up_and_out with S0 >= B, down_and_out with S0 <= B)
    knocks every path out at time zero: on a grid with at least one step and
    one path the estimate is exactly 0, whatever is drawn. *)
Theorem knocked_out_at_time_zero :
  forall (rng : Type) (seed_state : Z -> rng) (standard_normal : rng -> R * rng)
         (self : BarrierOption.t) (steps num_iters : Z) (seed : option Z) (g : rng),
    (barrier_type self = "up_and_out"%string /\ S0 self >= B self) \/
    (barrier_type self = "down_and_out"%string /\ S0 self <= B self) ->
    0 <= T self ->
    (1 <= steps)%Z -> (1 <= num_iters)%Z -> seed_ok seed ->
    exists g',
      monte_carlo_pricing seed_state standard_normal self steps num_iters seed g
      = (Ok (Num 0), g').
Proof.
  intros rng seed_state standard_normal self steps num_iters seed g
    Hb _ Hs Hn Hseed.
  destruct (pricing_run seed_state standard_normal self steps num_iters seed g)
    as (Zm & g' & _ & Hlen & Hshape & Hrun); [assumption | lia | lia |].
  exists g'. rewrite Hrun. f_equal.
  assert (Hkind : up_kind (barrier_type self) \/ down_kind (barrier_type self))
    by (unfold up_kind, down_kind; destruct Hb as [[-> _] | [-> _]]; tauto).
  assert (Hout : out_kind (barrier_type self))
    by (unfold out_kind; destruct Hb as [[-> _] | [-> _]]; tauto).
  assert (Hbreach : (up_kind (barrier_type self) /\ S0 self >= B self) \/
                    (down_kind (barrier_type self) /\ S0 self <= B self))
    by (unfold up_kind, down_kind; destruct Hb as [[-> ?] | [-> ?]]; tauto).
  destruct (contract_payoff_nth self _ Hkind
              (end_of_step_price_well_shaped self steps Zm Hshape))
    as (payoff & Hp & Hpl & Hnth).
  rewrite end_of_step_price_length in Hpl, Hnth.
  apply (estimated_value_all_zero _ _ _ Hp); [lia |].
  intros i Hi. rewrite Hpl in Hi. destruct (Hnth i Hi) as [Ho _].
  pose proof (generated_path_activated self steps Zm i Hbreach Hi) as Hact.
  destruct (Ho Hout) as [[_ ->] | [Hna _]]; [reflexivity | contradiction].
Qed.

Lemma knocked_out_at_time_zero_example :
  exists g',
    monte_carlo_pricing example_seed_state example_standard_normal
      (with_barrier_level example_contract 90) 3 2 None 0%nat
    = (Ok (Num 0), g').
Proof.
  apply (knocked_out_at_time_zero nat example_seed_state example_standard_normal
           (with_barrier_level example_contract 90) 3 2 None 0%nat).
  - left. split; [reflexivity | unfold example_contract; cbn; lra].
  - unfold example_contract; cbn. lra.
  - lia.
  - lia.
  - exact I.
Defined.

(** X8: for a valid contract with a non-negative maturity, an in barrier
    already breached by the initial price (up_and_in with S0 >= B,
    down_and_in with S0 <= B) is knocked in on every path: the estimate is
    the mean of the vanilla payoffs of the batch that was drawn
    (max(final - K, 0) for a call, max(K - final, 0) for a put) times
    exp(-r T). *)
Theorem knocked_in_at_time_zero :
  forall (rng : Type) (seed_state : Z -> rng) (standard_normal : rng -> R * rng)
         (self : BarrierOption.t) (steps num_iters : Z) (seed : option Z) (g : rng),
    valid self ->
    (barrier_type self = "up_and_in"%string /\ S0 self >= B self) \/
    (barrier_type self = "down_and_in"%string /\ S0 self <= B self) ->
    0 <= T self ->
    (1 <= steps)%Z -> (1 <= num_iters)%Z -> seed_ok seed ->
    exists Zm g' estimate,
      np_random_normal standard_normal num_iters steps
        (after_seed seed_state seed g) = (Ok Zm, g') /\
      monte_carlo_pricing seed_state standard_normal self steps num_iters seed g
      = (Ok (Num estimate), g') /\
      forall vanilla : nat -> R,
        (forall i, (i < Z.to_nat num_iters)%nat ->
           is_vanilla self
             (last (nth i (end_of_step_price self steps Zm) []) 0) (vanilla i)) ->
        estimate =
        arithmetic_mean vanilla (Z.to_nat num_iters)
        * exp (- (risk_free_rate self * T self)).
Proof.
  intros rng seed_state standard_normal self steps num_iters seed g
    Hv Hb _ Hs Hn Hseed.
  destruct (pricing_run seed_state standard_normal self steps num_iters seed g)
    as (Zm & g' & Hdraw & Hlen & Hshape & Hrun); [assumption | lia | lia |].
  destruct (valid_inv self Hv) as (Hot & Hkind & _).
  assert (Hin : in_kind (barrier_type self))
    by (unfold in_kind; destruct Hb as [[-> _] | [-> _]]; tauto).
  assert (Hbreach : (up_kind (barrier_type self) /\ S0 self >= B self) \/
                    (down_kind (barrier_type self) /\ S0 self <= B self))
    by (unfold up_kind, down_kind; destruct Hb as [[-> ?] | [-> ?]]; tauto).
  destruct (contract_payoff_nth self _ Hkind
              (end_of_step_price_well_shaped self steps Zm Hshape))
    as (payoff & Hp & Hpl & Hnth).
  assert (Hall : forall i, (i < length (end_of_step_price self steps Zm))%nat ->
            nth i payoff 0 =
            vanilla_payoff self
              (last (nth i (end_of_step_price self steps Zm) []) 0)).
  { intros i Hi. destruct (Hnth i Hi) as [_ Hi'].
    rewrite end_of_step_price_length in Hi.
    pose proof (generated_path_activated self steps Zm i Hbreach Hi) as Hact.
    destruct (Hi' Hin) as [[_ ->] | [Hna _]]; [reflexivity | contradiction]. }
  rewrite (estimated_value_all_vanilla _ _ _ Hp Hpl) in Hrun;
    [| rewrite end_of_step_price_length; lia | exact Hall].
  rewrite end_of_step_price_length, Hlen in Hrun.
  do 3 eexists. split; [exact Hdraw |]. split; [exact Hrun |].
  intros vanilla Hvan. f_equal.
  symmetry. apply arithmetic_mean_ext. intros i Hi.
  now apply is_vanilla_unique, Hvan.
Qed.

Lemma knocked_in_at_time_zero_example :
  exists Zm g' estimate,
    np_random_normal example_standard_normal 2 3
      (after_seed example_seed_state None 0%nat) = (Ok Zm, g') /\
    monte_carlo_pricing example_seed_state example_standard_normal
      (with_barrier_type (with_barrier_level example_contract 90) "up_and_in")
      3 2 None 0%nat
    = (Ok (Num estimate), g') /\
    forall vanilla : nat -> R,
      (forall i, (i < Z.to_nat 2)%nat ->
         is_vanilla
           (with_barrier_type (with_barrier_level example_contract 90) "up_and_in")
           (last (nth i (end_of_step_price
                           (with_barrier_type
                              (with_barrier_level example_contract 90) "up_and_in")
                           3 Zm) []) 0)
           (vanilla i)) ->
      estimate =
      arithmetic_mean vanilla (Z.to_nat 2)
      * exp (- (risk_free_rate
                  (with_barrier_type (with_barrier_level example_contract 90)
                     "up_and_in")
                * T (with_barrier_type (with_barrier_level example_contract 90)
                       "up_and_in"))).
Proof.
  apply (knocked_in_at_time_zero nat example_seed_state example_standard_normal
           (with_barrier_type (with_barrier_level example_contract 90) "up_and_in")
           3 2 None 0%nat).
  - unfold valid, with_barrier_type, with_barrier_level, example_contract; cbn.
    destruct (init_cases "call" "up_and_in" 100 100 90 1 0.2 0.05)
      as [[Hbad _] | [_ H]]; [exfalso | exact H].
    unfold rejected, bad_option_type, bad_barrier_type in Hbad.
    destruct Hbad as [[H _] | [(_ & _ & H & _) | [H | H]]]; try congruence; lra.
  - left. split; [reflexivity | unfold example_contract; cbn; lra].
  - unfold example_contract; cbn. lra.
  - lia.
  - lia.
  - exact I.
Defined.

(** ** Barrier against strike, and the level of the barrier *)

Lemma last_in (l : list R) d : l <> [] -> In (last l d) l.
Proof.
  induction l as [| x [| y l] IH]; intros Hne; [congruence | now left |].
  right. apply IH. discriminate.
Qed.

(** X9: an up-and-out call whose barrier is at or below the strike, and a
    down-and-out put whose barrier is at or above the strike, pay nothing on
    any path: a path that ends in the money has touched the barrier.  The
    estimate on a batch of at least one path, all paths of one length of at
    least one, is exactly 0. *)
Theorem knock_out_beyond_strike_is_worthless :
  forall self price_series,
    (option_type self = "call"%string /\ barrier_type self = "up_and_out"%string /\
     B self <= K self) \/
    (option_type self = "put"%string /\ barrier_type self = "down_and_out"%string /\
     K self <= B self) ->
    rectangular price_series ->
    estimated_value self price_series = Ok (Num 0).
Proof.
  intros self price_series Hc [Hnil Hshape].
  pose proof (well_shaped_nonempty _ Hshape) as Hne.
  assert (Hkind : up_kind (barrier_type self) \/ down_kind (barrier_type self))
    by (unfold up_kind, down_kind; destruct Hc as [(_ & -> & _) | (_ & -> & _)]; tauto).
  assert (Hout : out_kind (barrier_type self))
    by (unfold out_kind; destruct Hc as [(_ & -> & _) | (_ & -> & _)]; tauto).
  destruct (contract_payoff_nth self price_series Hkind Hshape)
    as (payoff & Hp & Hlen & Hnth).
  apply (estimated_value_all_zero _ _ _ Hp).
  { rewrite Hlen. destruct price_series; [congruence | cbn; lia]. }
  intros i Hi. rewrite Hlen in Hi. destruct (Hnth i Hi) as [Ho _].
  destruct (Ho Hout) as [[_ ->] | [Hna ->]]; [reflexivity |].
  assert (Hrow : nth i price_series [] <> []).
  { rewrite Forall_forall in Hne. apply Hne, nth_In, Hi. }
  pose proof (last_in _ 0 Hrow) as Hlast.
  unfold vanilla_payoff, activated, up_kind, down_kind in *.
  destruct Hc as [(Hot & Hbt & HBK) | (Hot & Hbt & HBK)]; rewrite Hot; cbn.
  - destruct (np_max_spec _ Hrow) as (m & _ & Hm).
    assert (~ m >= B self) by (intros Hge; apply Hna; left; eauto).
    destruct Hm as [_ Hub]. specialize (Hub _ Hlast).
    unfold Rmax. destruct (Rle_dec _ 0); lra.
  - destruct (np_min_spec _ Hrow) as (m & _ & Hm).
    assert (~ m <= B self) by (intros Hle; apply Hna; right; eauto).
    destruct Hm as [_ Hlb]. specialize (Hlb _ Hlast).
    unfold Rmax. destruct (Rle_dec _ 0); lra.
Qed.

Lemma knock_out_beyond_strike_is_worthless_example :
  estimated_value (with_barrier_level example_contract 95) example_batch
  = Ok (Num 0).
Proof.
  apply (knock_out_beyond_strike_is_worthless
           (with_barrier_level example_contract 95) example_batch).
  - left. repeat split; unfold example_contract; cbn; lra.
  - exact example_batch_rectangular.
Defined.

(** X10: moving an out barrier away from the price never lowers the
    estimate on a given batch of at least one path, all paths of one length
    of at least one: raising the level of an up_and_out barrier, or lowering
    the level of a down_and_out barrier, keeps every path that was alive. *)
Theorem knock_out_price_monotone_in_barrier :
  forall self price_series b b',
    (barrier_type self = "up_and_out"%string /\ b <= b') \/
    (barrier_type self = "down_and_out"%string /\ b' <= b) ->
    rectangular price_series ->
    exists e e',
      estimated_value (with_barrier_level self b) price_series = Ok (Num e) /\
      estimated_value (with_barrier_level self b') price_series = Ok (Num e') /\
      e <= e'.
Proof.
  intros self price_series b b' Hb [Hnil Hne].
  assert (Hkind : up_kind (barrier_type self) \/ down_kind (barrier_type self))
    by (unfold up_kind, down_kind; destruct Hb as [[-> _] | [-> _]]; tauto).
  assert (Hout : out_kind (barrier_type self))
    by (unfold out_kind; destruct Hb as [[-> _] | [-> _]]; tauto).
  destruct (contract_payoff_nth (with_barrier_level self b) price_series Hkind Hne)
    as (p & Hp & Hl & Hnth).
  destruct (contract_payoff_nth (with_barrier_level self b') price_series Hkind Hne)
    as (p' & Hp' & Hl' & Hnth').
  apply (estimated_value_le _ _ _ p p'); try assumption; try reflexivity.
  intros i Hi.
  destruct (Hnth i Hi) as [Ho _]. destruct (Hnth' i Hi) as [Ho' _].
  cbn zeta in Ho, Ho'. specialize (Ho Hout). specialize (Ho' Hout).
  pose proof (vanilla_payoff_nonneg (with_barrier_level self b')
                (last (nth i price_series []) 0)) as Hpos.
  change (vanilla_payoff (with_barrier_level self b)
            (last (nth i price_series []) 0))
    with (vanilla_payoff (with_barrier_level self b')
            (last (nth i price_series []) 0)) in Ho.
  destruct Ho as [[_ ->] | [Hna ->]]; destruct Ho' as [[Ha' ->] | [_ ->]]; try lra.
  exfalso. apply Hna. clear - Ha' Hb.
  unfold activated, up_kind, down_kind in *. cbn in *.
  destruct Hb as [[Hbt Hle] | [Hbt Hle]]; rewrite Hbt in *.
  - destruct Ha' as [[_ (m & Hm & Hge)] | [[H | H] _]]; try discriminate H.
    left. split; [tauto |]. exists m. split; [exact Hm | lra].
  - destruct Ha' as [[[H | H] _] | [_ (m & Hm & Hge)]]; try discriminate H.
    right. split; [tauto |]. exists m. split; [exact Hm | lra].
Qed.

Lemma knock_out_price_monotone_in_barrier_example :
  exists e e',
    estimated_value (with_barrier_level example_contract 112) example_batch
    = Ok (Num e) /\
    estimated_value (with_barrier_level example_contract 120) example_batch
    = Ok (Num e') /\
    e <= e'.
Proof.
  apply (knock_out_price_monotone_in_barrier example_contract example_batch 112 120).
  - left. split; [reflexivity | lra].
  - exact example_batch_rectangular.
Defined.

(** ** Complementarity of two pricing calls *)

(** X11: for a valid contract with a non-negative maturity, pricing calls
    on the same grid that start from the same generator state (in
    particular, calls with the same accepted seed) draw the same batch
    whatever the barrier type and leave the generator in the same state;
    the up_and_out and up_and_in estimates add up to the mean of the vanilla
    payoffs of that batch (max(final - K, 0) for a call, max(K - final, 0)
    for a put) times exp(-r T); likewise for down_and_out and
    down_and_in. *)
Theorem pricing_calls_are_complementary :
  forall (rng : Type) (seed_state : Z -> rng) (standard_normal : rng -> R * rng)
         (self : BarrierOption.t) (steps num_iters : Z) (seed : option Z) (g : rng),
    valid self -> 0 <= T self ->
    (1 <= steps)%Z -> (1 <= num_iters)%Z -> seed_ok seed ->
    exists Zm g' up_out up_in down_out down_in,
      np_random_normal standard_normal num_iters steps
        (after_seed seed_state seed g) = (Ok Zm, g') /\
      monte_carlo_pricing seed_state standard_normal
        (with_barrier_type self "up_and_out") steps num_iters seed g
      = (Ok (Num up_out), g') /\
      monte_carlo_pricing seed_state standard_normal
        (with_barrier_type self "up_and_in") steps num_iters seed g
      = (Ok (Num up_in), g') /\
      monte_carlo_pricing seed_state standard_normal
        (with_barrier_type self "down_and_out") steps num_iters seed g
      = (Ok (Num down_out), g') /\
      monte_carlo_pricing seed_state standard_normal
        (with_barrier_type self "down_and_in") steps num_iters seed g
      = (Ok (Num down_in), g') /\
      forall vanilla : nat -> R,
        (forall i, (i < Z.to_nat num_iters)%nat ->
           is_vanilla self
             (last (nth i (end_of_step_price self steps Zm) []) 0) (vanilla i)) ->
        up_out + up_in =
        arithmetic_mean vanilla (Z.to_nat num_iters)
        * exp (- (risk_free_rate self * T self)) /\
        down_out + down_in =
        arithmetic_mean vanilla (Z.to_nat num_iters)
        * exp (- (risk_free_rate self * T self)).
Proof.
  intros rng seed_state standard_normal self steps num_iters seed g
    Hv _ Hs Hn Hseed.
  destruct (np_random_normal_shape standard_normal num_iters steps
              (after_seed seed_state seed g))
    as (Zm & g' & Hdraw & Hlen & Hshape); [lia | lia |].
  assert (Hrun : forall c,
            monte_carlo_pricing seed_state standard_normal c steps num_iters seed g
            = (estimated_value c (end_of_step_price c steps Zm), g')).
  { intros c. rewrite pricing_unfold by exact Hseed.
    replace (steps =? 0)%Z with false by (symmetry; apply Z.eqb_neq; lia).
    now rewrite Hdraw. }
  assert (Hnil : end_of_step_price self steps Zm <> []).
  { intros E. apply (f_equal (@length (list R))) in E.
    rewrite end_of_step_price_length, Hlen in E. cbn in E. lia. }
  destruct (in_out_sums self (end_of_step_price self steps Zm) Hnil
              (end_of_step_price_well_shaped self steps Zm Hshape))
    as (uo & ui & dn & di & Huo & Hui & Hdo & Hdi & Hup & Hdown).
  exists Zm, g', uo, ui, dn, di.
  split; [exact Hdraw |].
  rewrite !Hrun.
  change (end_of_step_price (with_barrier_type self "up_and_out") steps Zm)
    with (end_of_step_price self steps Zm).
  change (end_of_step_price (with_barrier_type self "up_and_in") steps Zm)
    with (end_of_step_price self steps Zm).
  change (end_of_step_price (with_barrier_type self "down_and_out") steps Zm)
    with (end_of_step_price self steps Zm).
  change (end_of_step_price (with_barrier_type self "down_and_in") steps Zm)
    with (end_of_step_price self steps Zm).
  rewrite Huo, Hui, Hdo, Hdi. do 4 (split; [reflexivity |]).
  intros vanilla Hvan. destruct (valid_inv self Hv) as (Hot & _).
  rewrite end_of_step_price_length, Hlen in Hup, Hdown.
  assert (E : arithmetic_mean vanilla (Z.to_nat num_iters) =
              arithmetic_mean
                (fun i => vanilla_payoff self
                            (last (nth i (end_of_step_price self steps Zm) []) 0))
                (Z.to_nat num_iters)).
  { apply arithmetic_mean_ext. intros i Hi. now apply is_vanilla_unique, Hvan. }
  rewrite E. split; [exact Hup | exact Hdown].
Qed.

Lemma pricing_calls_are_complementary_example :
  exists Zm g' up_out up_in down_out down_in,
    np_random_normal example_standard_normal 2 3
      (after_seed example_seed_state (Some 42%Z) 7%nat) = (Ok Zm, g') /\
    monte_carlo_pricing example_seed_state example_standard_normal
      (with_barrier_type example_contract "up_and_out") 3 2 (Some 42%Z) 7%nat
    = (Ok (Num up_out), g') /\
    monte_carlo_pricing example_seed_state example_standard_normal
      (with_barrier_type example_contract "up_and_in") 3 2 (Some 42%Z) 7%nat
    = (Ok (Num up_in), g') /\
    monte_carlo_pricing example_seed_state example_standard_normal
      (with_barrier_type example_contract "down_and_out") 3 2 (Some 42%Z) 7%nat
    = (Ok (Num down_out), g') /\
    monte_carlo_pricing example_seed_state example_standard_normal
      (with_barrier_type example_contract "down_and_in") 3 2 (Some 42%Z) 7%nat
    = (Ok (Num down_in), g') /\
    forall vanilla : nat -> R,
      (forall i, (i < Z.to_nat 2)%nat ->
         is_vanilla example_contract
           (last (nth i (end_of_step_price example_contract 3 Zm) []) 0)
           (vanilla i)) ->
      up_out + up_in =
      arithmetic_mean vanilla (Z.to_nat 2)
      * exp (- (risk_free_rate example_contract * T example_contract)) /\
      down_out + down_in =
      arithmetic_mean vanilla (Z.to_nat 2)
      * exp (- (risk_free_rate example_contract * T example_contract)).
Proof.
  apply (pricing_calls_are_complementary nat example_seed_state
           example_standard_normal example_contract 3 2 (Some 42%Z) 7%nat).
  - exact example_contract_valid.
  - exact example_contract_maturity.
  - lia.
  - lia.
  - cbn. lia.
Defined.

(** ** Malformed batches *)

Lemma axis1_extremum_empty_row (f : list R -> result R) a :
  f [] = Raise ValueError ->
  (forall row e, f row = Raise e -> e = ValueError) ->
  In [] a -> axis1 f a = Raise ValueError.
Proof.
  intros Hnil Herr. induction a as [| row rows IH]; intros Hin; [destruct Hin |].
  cbn [axis1]. destruct Hin as [-> | Hin].
  - now rewrite Hnil.
  - destruct (f row) as [m | e] eqn:E; cbn [rbind].
    + now rewrite IH.
    + now rewrite (Herr row e E).
Qed.

(** X12: a batch that contains a path without any element is refused with
    numpy's ValueError, for every contract: neither payoffs nor an estimate
    are produced. *)
Theorem empty_path_is_refused :
  forall self price_series,
    In [] price_series ->
    contract_payoff self price_series = Raise ValueError /\
    estimated_value self price_series = Raise ValueError.
Proof.
  intros self price_series Hin.
  assert (Hbr : barrier_reached self price_series = Raise ValueError).
  { unfold barrier_reached.
    assert (Harr : np_array price_series = Ok price_series \/
                   np_array price_series = Raise ValueError).
    { unfold np_array. destruct price_series as [| row rows]; [now left |].
      destruct (forallb _ rows); [now left | now right]. }
    destruct Harr as [-> | ->]; [cbn [rbind] | reflexivity].
    destruct (is_up self).
    - rewrite (axis1_extremum_empty_row np_max); try easy.
      intros [| x xs] e H; cbn in H; congruence.
    - rewrite (axis1_extremum_empty_row np_min); try easy.
      intros [| x xs] e H; cbn in H; congruence. }
  assert (Hp : contract_payoff self price_series = Raise ValueError).
  { unfold contract_payoff. rewrite Hbr. now destruct (is_up self). }
  split; [exact Hp |]. unfold estimated_value. now rewrite Hp.
Qed.

Lemma empty_path_is_refused_example :
  contract_payoff example_contract [[100; 110]; []] = Raise ValueError /\
  estimated_value example_contract [[100; 110]; []] = Raise ValueError.
Proof.
  apply (empty_path_is_refused example_contract [[100; 110]; []]).
  right. left. reflexivity.
Defined.

(** ** The plot branch *)

Lemma np_linspace_spec start stop num :
  (2 <= num)%Z ->
  exists grid,
    np_linspace start stop num = Ok grid /\
    length grid = Z.to_nat num /\
    forall k, (k < Z.to_nat num)%nat ->
      nth k grid 0 = start + INR k * ((stop - start) / INR (Z.to_nat num - 1)).
Proof.
  intros Hnum. unfold np_linspace.
  replace (num <? 0)%Z with false by (symmetry; apply Z.ltb_ge; lia).
  destruct (Z.to_nat num) as [| m] eqn:E; [lia |].
  assert (Hm : (1 <= m)%nat) by lia.
  replace (1 <? S m)%nat with true by (symmetry; apply Nat.ltb_lt; lia).
  replace (S m - 1)%nat with m by lia.
  rewrite seq_S, map_app. cbn [Nat.add map]. rewrite removelast_last.
  eexists. split; [reflexivity |]. split.
  - rewrite length_app, length_map, length_seq. cbn. lia.
  - intros k Hk. destruct (Nat.eq_dec k m) as [-> | Hne].
    + rewrite app_nth2; rewrite length_map, length_seq; [| lia].
      rewrite Nat.sub_diag. cbn [nth]. field. apply not_0_INR. lia.
    + rewrite app_nth1 by (rewrite length_map, length_seq; lia).
      rewrite (nth_map_in _ _ 0%nat) by (rewrite length_seq; lia).
      rewrite seq_nth by lia. cbn [Nat.add]. ring.
Qed.

Lemma time_grid_spec self steps :
  (1 <= steps)%Z ->
  exists grid,
    np_linspace 0 (T self) (steps + 1) = Ok grid /\
    length grid = S (Z.to_nat steps) /\
    forall k, (k <= Z.to_nat steps)%nat ->
      nth k grid 0 = INR k * (T self / IZR steps).
Proof.
  intros Hs.
  destruct (np_linspace_spec 0 (T self) (steps + 1)) as (grid & Hg & Hlen & Hnth);
    [lia |].
  assert (E : Z.to_nat (steps + 1) = S (Z.to_nat steps)) by lia.
  rewrite E in Hlen, Hnth. exists grid. split; [exact Hg |]. split; [exact Hlen |].
  intros k Hk. rewrite Hnth by lia.
  replace (S (Z.to_nat steps) - 1)%nat with (Z.to_nat steps) by lia.
  rewrite (INR_IZR_INZ (Z.to_nat steps)), Z2Nat.id by lia.
  field. apply not_0_IZR. lia.
Qed.

Lemma plot_loop_spec self steps Zm grid :
  np_linspace 0 (T self) (steps + 1) = Ok grid ->
  length grid = S (Z.to_nat steps) ->
  Forall (fun Zrow => length Zrow = Z.to_nat steps) Zm ->
  forall iters,
    Forall (fun iter => (iter < length Zm)%nat) iters ->
    plot_loop self steps (end_of_step_price self steps Zm) iters =
    Ok (map (fun iter => (grid, nth iter (end_of_step_price self steps Zm) []))
          iters).
Proof.
  intros Hg Hlen Hshape iters Hit.
  induction Hit as [| iter rest Hi _ IH]; cbn [plot_loop map]; [reflexivity |].
  rewrite Hg, IH. cbn [rbind]. unfold plt_plot.
  replace (length grid =? length (nth iter (end_of_step_price self steps Zm) []))%nat
    with true; [reflexivity |].
  symmetry. apply Nat.eqb_eq. rewrite Hlen, end_of_step_price_row by exact Hi.
  cbn [length]. rewrite length_map, np_cumprod_length, length_map.
  rewrite Forall_forall in Hshape. now rewrite (Hshape _ (nth_In _ _ Hi)).
Qed.

(** X13: on a batch generated for at least one step, the plot loop never
    fails: it hands matplotlib one curve per path, each pairing the path
    with a time grid of the same length, [steps + 1], whose point k is
    k * T / steps (so it runs from 0 to T). *)
Theorem plot_curves_are_aligned :
  forall self steps Zm,
    (1 <= steps)%Z ->
    Forall (fun Zrow => length Zrow = Z.to_nat steps) Zm ->
    exists curves,
      plot_loop self steps (end_of_step_price self steps Zm) (seq 0 (length Zm))
      = Ok curves /\
      length curves = length Zm /\
      forall i, (i < length Zm)%nat ->
        let curve := nth i curves ([], []) in
        snd curve = nth i (end_of_step_price self steps Zm) [] /\
        length (fst curve) = S (Z.to_nat steps) /\
        length (snd curve) = S (Z.to_nat steps) /\
        forall k, (k <= Z.to_nat steps)%nat ->
          nth k (fst curve) 0 = INR k * (T self / IZR steps).
Proof.
  intros self steps Zm Hs Hshape.
  destruct (time_grid_spec self steps Hs) as (grid & Hg & Hlen & Hnth).
  eexists. split.
  - apply (plot_loop_spec self steps Zm grid Hg Hlen Hshape).
    apply Forall_forall. intros iter Hin. apply in_seq in Hin. lia.
  - split; [now rewrite length_map, length_seq |].
    intros i Hi. cbn zeta.
    rewrite (nth_map_in _ _ 0%nat) by (rewrite length_seq; lia).
    rewrite seq_nth by lia. cbn [Nat.add fst snd].
    split; [reflexivity |]. split; [exact Hlen |]. split; [| exact Hnth].
    rewrite end_of_step_price_row by exact Hi. cbn [length].
    rewrite length_map, np_cumprod_length, length_map.
    rewrite Forall_forall in Hshape. now rewrite (Hshape _ (nth_In _ _ Hi)).
Qed.

Lemma plot_curves_are_aligned_example :
  exists curves,
    plot_loop example_contract 3
      (end_of_step_price example_contract 3 [[0; 1; -2]; [-1; 0; 3]])
      (seq 0 (length [[0; 1; -2]; [-1; 0; 3]]))
    = Ok curves /\
    length curves = length [[0; 1; -2]; [-1; 0; 3]].
Proof.
  destruct (plot_curves_are_aligned example_contract 3 [[0; 1; -2]; [-1; 0; 3]])
    as (curves & Hc & Hl & _).
  - lia.
  - repeat constructor.
  - exists curves. split; [exact Hc | exact Hl].
Defined.

Section PlotRun.

Context {rng : Type} (seed_state : Z -> rng) (standard_normal : rng -> R * rng).

Lemma pricing_plot_unfold self steps num_iters plot seed g :
  seed_ok seed ->
  monte_carlo_pricing_plot seed_state standard_normal self steps num_iters plot seed g =
  if (steps =? 0)%Z
  then (Raise ZeroDivisionError, after_seed seed_state seed g)
  else match np_random_normal standard_normal num_iters steps
               (after_seed seed_state seed g) with
       | (Ok Zm, g') =>
           match estimated_value self (end_of_step_price self steps Zm) with
           | Ok e =>
               if plot
               then match plot_loop self steps (end_of_step_price self steps Zm)
                            (seq 0 (Z.to_nat num_iters)) with
                    | Ok curves => (Ok (e, curves), g')
                    | Raise x => (Raise x, g')
                    end
               else (Ok (e, []), g')
           | Raise x => (Raise x, g')
           end
       | (Raise e, g') => (Raise e, g')
       end.
Proof.
  intros Hseed. unfold monte_carlo_pricing_plot, bind, lift, py_truediv.
  assert (Hs : (match seed with
                | Some s => np_random_seed seed_state s
                | None => ret tt
                end) g = (Ok tt, after_seed seed_state seed g)).
  { destruct seed as [s |]; [| reflexivity].
    unfold np_random_seed, after_seed, seed_ok in *.
    replace ((0 <=? s) && (s <? 2 ^ 32))%Z with true; [reflexivity |].
    symmetry. apply andb_true_iff. split; [apply Z.leb_le | apply Z.ltb_lt]; lia. }
  rewrite Hs. destruct (steps =? 0)%Z; [reflexivity |].
  destruct (np_random_normal standard_normal num_iters steps
              (after_seed seed_state seed g)) as [[Zm | e] g']; [| reflexivity].
  destruct (estimated_value self (end_of_step_price self steps Zm)); [| reflexivity].
  destruct plot; [| reflexivity].
  destruct (plot_loop self steps (end_of_step_price self steps Zm)
              (seq 0 (Z.to_nat num_iters))); reflexivity.
Qed.

Lemma pricing_plot_bad_seed self steps num_iters plot s g :
  ~ (0 <= s < 2 ^ 32)%Z ->
  monte_carlo_pricing_plot seed_state standard_normal self steps num_iters plot
    (Some s) g
  = (Raise ValueError, g).
Proof.
  intros Hs. unfold monte_carlo_pricing_plot, bind, np_random_seed.
  replace ((0 <=? s) && (s <? 2 ^ 32))%Z with false; [reflexivity |].
  symmetry. apply andb_false_iff.
  destruct (Z.leb_spec 0 s); [right; apply Z.ltb_ge; lia | now left].
Qed.

(** Once the sampler has answered, the plot loop cannot fail. *)
Lemma plot_loop_after_sampling self steps num_iters g Zm g' :
  (steps =? 0)%Z = false ->
  np_random_normal standard_normal num_iters steps g = (Ok Zm, g') ->
  exists curves,
    plot_loop self steps (end_of_step_price self steps Zm)
      (seq 0 (Z.to_nat num_iters)) = Ok curves.
Proof.
  intros Hs Hdraw. apply Z.eqb_neq in Hs.
  assert (Hpos : (0 <= num_iters)%Z /\ (0 <= steps)%Z).
  { unfold np_random_normal in Hdraw.
    destruct (num_iters <? 0)%Z eqn:E1; destruct (steps <? 0)%Z eqn:E2;
      cbn [orb] in Hdraw; try discriminate Hdraw.
    apply Z.ltb_ge in E1. apply Z.ltb_ge in E2. lia. }
  destruct (np_random_normal_shape standard_normal num_iters steps g)
    as (Zm' & g'' & Hdraw' & Hlen & Hshape); [lia | lia |].
  assert (Zm' = Zm) by congruence. subst Zm'.
  destruct (time_grid_spec self steps) as (grid & Hg & Hgl & _); [lia |].
  eexists. apply (plot_loop_spec self steps Zm grid Hg Hgl Hshape).
  apply Forall_forall. intros iter Hin. apply in_seq in Hin. lia.
Qed.

Lemma pricing_plot_agrees self steps num_iters plot seed g :
  (estimate_of
     (fst (monte_carlo_pricing_plot seed_state standard_normal self steps
             num_iters plot seed g)),
   snd (monte_carlo_pricing_plot seed_state standard_normal self steps
          num_iters plot seed g))
  = monte_carlo_pricing seed_state standard_normal self steps num_iters seed g.
Proof.
  assert (Hok : seed_ok seed ->
    (estimate_of
       (fst (monte_carlo_pricing_plot seed_state standard_normal self steps
               num_iters plot seed g)),
     snd (monte_carlo_pricing_plot seed_state standard_normal self steps
            num_iters plot seed g))
    = monte_carlo_pricing seed_state standard_normal self steps num_iters seed g).
  { intros Hseed. rewrite pricing_plot_unfold, pricing_unfold by exact Hseed.
    destruct (steps =? 0)%Z eqn:Hs; [reflexivity |].
    destruct (np_random_normal standard_normal num_iters steps
                (after_seed seed_state seed g)) as [[Zm | e] g'] eqn:Hdraw;
      [| reflexivity].
    destruct (estimated_value self (end_of_step_price self steps Zm));
      [| reflexivity].
    destruct plot; [| reflexivity].
    destruct (plot_loop_after_sampling self steps num_iters _ Zm g' Hs Hdraw)
      as (curves & ->).
    reflexivity. }
  destruct seed as [s |]; [| apply Hok; exact I].
  destruct (Z_le_dec 0 s) as [H0 | H0]; [destruct (Z_lt_dec s (2 ^ 32)) as [H1 | H1] |].
  - apply Hok. cbn. lia.
  - now rewrite pricing_plot_bad_seed, pricing_bad_seed by lia.
  - now rewrite pricing_plot_bad_seed, pricing_bad_seed by lia.
Qed.

End PlotRun.

(** X14: asking for the plot changes nothing else: for every contract, grid,
    seed and generator state, the call with [plot=True] returns the same
    estimate or raises the same error as the call with [plot=False], and
    leaves the generator in the same state; plotting itself never raises. *)
Theorem plotting_preserves_the_estimate :
  forall (rng : Type) (seed_state : Z -> rng) (standard_normal : rng -> R * rng)
         (self : BarrierOption.t) (steps num_iters : Z) (plot : bool)
         (seed : option Z) (g : rng),
    (estimate_of
       (fst (monte_carlo_pricing_plot seed_state standard_normal self steps
               num_iters plot seed g)),
     snd (monte_carlo_pricing_plot seed_state standard_normal self steps
            num_iters plot seed g))
    = monte_carlo_pricing seed_state standard_normal self steps num_iters seed g.
Proof. intros. apply pricing_plot_agrees. Qed.

(** ** The command line *)

Lemma estimated_value_ok self price_series :
  up_kind (barrier_type self) \/ down_kind (barrier_type self) ->
  well_shaped price_series ->
  exists e, estimated_value self price_series = Ok e.
Proof.
  intros Hkind Hne.
  destruct (contract_payoff_nth self price_series Hkind Hne) as (payoff & Hp & _).
  unfold estimated_value. rewrite Hp. cbn [rbind]. eauto.
Qed.

(** X15: what a run of the command line ends in, from the parsed arguments:
    a rejected option type, barrier type or volatility exits the process
    before the generator is touched; for an accepted contract, [steps = 0]
    ends in a division by zero and a negative [steps] or [num_iters] in
    numpy's ValueError, again with the generator untouched; with at least
    one step and no negative path count the run completes, having drawn
    exactly the sample matrix from the state it found, unseeded. *)
Theorem cli_outcomes :
  forall (rng : Type) (seed_state : Z -> rng) (standard_normal : rng -> R * rng)
         (ot bt : string) (s0 k b t vol r : R) (steps num_iters : Z) (g : rng),
    (rejected ot bt vol ->
     cli seed_state standard_normal ot bt s0 k b t vol r steps num_iters g
     = (Raise SystemExit, g)) /\
    (~ rejected ot bt vol -> steps = 0%Z ->
     cli seed_state standard_normal ot bt s0 k b t vol r steps num_iters g
     = (Raise ZeroDivisionError, g)) /\
    (~ rejected ot bt vol -> steps <> 0%Z -> (steps < 0)%Z \/ (num_iters < 0)%Z ->
     cli seed_state standard_normal ot bt s0 k b t vol r steps num_iters g
     = (Raise ValueError, g)) /\
    (~ rejected ot bt vol -> (1 <= steps)%Z -> (0 <= num_iters)%Z ->
     exists Zm g',
       np_random_normal standard_normal num_iters steps g = (Ok Zm, g') /\
       cli seed_state standard_normal ot bt s0 k b t vol r steps num_iters g
       = (Ok tt, g')).
Proof.
  intros rng seed_state standard_normal ot bt s0 k b t vol r steps num_iters g.
  unfold cli, bind, lift.
  destruct (init_cases ot bt s0 k b t vol r) as [[Hbad ->] | [Hgood Hinit]].
  { split; [reflexivity |]. repeat split; intros; contradiction. }
  rewrite Hinit.
  rewrite (pricing_plot_unfold seed_state standard_normal _ steps num_iters true None g I).
  change (after_seed seed_state None g) with g.
  split; [intros; contradiction |]. split; [| split].
  - intros _ ->. reflexivity.
  - intros _ Hs Hneg.
    replace (steps =? 0)%Z with false by (symmetry; apply Z.eqb_neq; lia).
    now rewrite np_random_normal_negative by tauto.
  - intros _ Hs Hn.
    assert (Hs0 : (steps =? 0)%Z = false) by (apply Z.eqb_neq; lia).
    rewrite Hs0.
    destruct (np_random_normal_shape standard_normal num_iters steps g)
      as (Zm & g' & Hdraw & _ & Hshape); [lia | lia |].
    exists Zm, g'. split; [exact Hdraw |]. rewrite Hdraw.
    assert (Hv : valid (mk ot bt s0 k b t vol r)) by exact Hinit.
    destruct (valid_inv _ Hv) as (_ & Hkind & _).
    destruct (estimated_value_ok (mk ot bt s0 k b t vol r)
                (end_of_step_price (mk ot bt s0 k b t vol r) steps Zm) Hkind
                (end_of_step_price_well_shaped _ steps Zm Hshape)) as (e & ->).
    destruct (plot_loop_after_sampling standard_normal (mk ot bt s0 k b t vol r)
                steps num_iters g Zm g' Hs0 Hdraw) as (curves & ->).
    reflexivity.
Qed.

Lemma cli_outcomes_example :
  cli example_seed_state example_standard_normal
    "call" "sideways" 100 100 120 1 0.2 0.05 3 2 7%nat
  = (Raise SystemExit, 7%nat).
Proof.
  apply (cli_outcomes nat example_seed_state example_standard_normal
           "call" "sideways" 100 100 120 1 0.2 0.05 3 2 7%nat).
  right. left. repeat split; discriminate.
Defined.

(** ** A bound for puts *)

(** X16: for a valid put with a positive initial price, a non-negative
    strike and a non-negative maturity, on a grid with at least one step and
    one path, the estimate lies between 0 and the discounted strike
    K * exp(-r T): simulated prices stay positive, so no path pays more than
    the strike. *)
Theorem put_estimate_at_most_discounted_strike :
  forall (rng : Type) (seed_state : Z -> rng) (standard_normal : rng -> R * rng)
         (self : BarrierOption.t) (steps num_iters : Z) (seed : option Z) (g : rng),
    valid self -> option_type self = "put"%string ->
    0 < S0 self -> 0 <= K self -> 0 <= T self ->
    (1 <= steps)%Z -> (1 <= num_iters)%Z -> seed_ok seed ->
    exists estimate g',
      monte_carlo_pricing seed_state standard_normal self steps num_iters seed g
      = (Ok (Num estimate), g') /\
      0 <= estimate <= K self * exp (- (risk_free_rate self * T self)).
Proof.
  intros rng seed_state standard_normal self steps num_iters seed g
    Hv Hput HS0 HK _ Hs Hn Hseed.
  destruct (pricing_run seed_state standard_normal self steps num_iters seed g)
    as (Zm & g' & _ & Hlen & Hshape & Hrun); [assumption | lia | lia |].
  destruct (valid_inv self Hv) as (_ & Hkind & Hoi & _).
  pose proof (end_of_step_price_well_shaped self steps Zm Hshape) as Hne.
  destruct (contract_payoff_nth self _ Hkind Hne) as (payoff & Hp & Hpl & Hnth).
  rewrite end_of_step_price_length in Hpl, Hnth.
  assert (Hent : forall i, (i < length Zm)%nat -> 0 <= nth i payoff 0 <= K self).
  { intros i Hi. destruct (Hnth i Hi) as [Hout Hin]. cbn zeta in Hout, Hin.
    set (path := nth i (end_of_step_price self steps Zm) []) in *.
    assert (Hpath : In path (end_of_step_price self steps Zm))
      by (apply nth_In; now rewrite end_of_step_price_length).
    assert (Hrow : path <> []).
    { pose proof (well_shaped_nonempty _ Hne) as Hrows.
      rewrite Forall_forall in Hrows. now apply Hrows. }
    assert (Hlast : 0 < last path 0).
    { pose proof (end_of_step_price_pos self steps Zm HS0) as Hpos.
      rewrite Forall_forall in Hpos. specialize (Hpos _ Hpath).
      rewrite Forall_forall in Hpos. apply Hpos, last_in, Hrow. }
    assert (Hvan : 0 <= vanilla_payoff self (last path 0) <= K self).
    { unfold vanilla_payoff. rewrite Hput. cbn. unfold Rmax.
      destruct (Rle_dec (K self - last path 0) 0); lra. }
    destruct Hoi as [Hk | Hk];
      [destruct (Hout Hk) as [[_ ->] | [_ ->]]
      | destruct (Hin Hk) as [[_ ->] | [_ ->]]]; lra. }
  assert (Hone : (1 <= length payoff)%nat) by lia.
  rewrite (estimated_value_mean _ _ _ Hp Hone) in Hrun.
  do 2 eexists. split; [exact Hrun |].
  assert (He : 0 < exp (- (risk_free_rate self * T self))) by apply exp_pos.
  assert (Hinv : 0 < / INR (length payoff))
    by (apply Rinv_0_lt_compat, lt_0_INR; lia).
  unfold arithmetic_mean. split.
  - apply Rmult_le_pos; [| lra].
    apply big_sum_nonneg. intros i Hi.
    apply Rmult_le_pos; [apply Hent; lia | lra].
  - apply Rle_trans with
      (big_sum (fun _ => K self * exp (- (risk_free_rate self * T self)))
         (length payoff) / INR (length payoff)).
    + apply Rmult_le_compat_r; [lra |].
      apply big_sum_le. intros i Hi.
      apply Rmult_le_compat_r; [lra |]. apply Hent. lia.
    + right. rewrite big_sum_const. field. apply not_0_INR. lia.
Qed.

Lemma put_estimate_at_most_discounted_strike_example :
  exists estimate g',
    monte_carlo_pricing example_seed_state example_standard_normal
      (with_option_type example_contract "put") 3 2 (Some 42%Z) 7%nat
    = (Ok (Num estimate), g') /\
    0 <= estimate
    <= K (with_option_type example_contract "put")
       * exp (- (risk_free_rate (with_option_type example_contract "put")
                 * T (with_option_type example_contract "put"))).
Proof.
  apply (put_estimate_at_most_discounted_strike nat example_seed_state
           example_standard_normal (with_option_type example_contract "put")
           3 2 (Some 42%Z) 7%nat).
  - unfold valid, with_option_type, example_contract; cbn.
    destruct (init_cases "put" "up_and_out" 100 100 120 1 0.2 0.05)
      as [[Hbad _] | [_ H]]; [exfalso | exact H].
    unfold rejected, bad_option_type, bad_barrier_type in Hbad.
    destruct Hbad as [[_ H] | [[H _] | [H | H]]]; try congruence; lra.
  - reflexivity.
  - unfold example_contract; cbn. lra.
  - unfold example_contract; cbn. lra.
  - unfold example_contract; cbn. lra.
  - lia.
  - lia.
  - cbn. lia.
Defined.
